(** * A shallow embedding of the jayrock.rs lenient JSON tokenizer (src/json.rs)

    The reader is modelled the way the Rust code is written: a record
    [JsonTextReader] holding the source buffer, the continuation stack, the
    remaining [char_indices] of the source and the one-slot pushback
    [next]; every method is a computation in a small state monad over that
    record whose outcome is [Ret] (Rust [Ok]), [Throw] (Rust [Err], the [?]
    operator propagates it) or [Panic] (a string slice out of bounds or off a
    character boundary). *)

From Stdlib Require Import List NArith Arith Bool Lia Ascii.
From Stdlib Require Import String.
Import ListNotations.

Open Scope N_scope.

(** ** Characters, UTF-8 offsets and string slices *)

(** A Rust [char]: a Unicode scalar value. *)
Definition char := N.

(** [(usize, char)] pairs produced by [str::char_indices]: byte offset and
    character. *)
Definition IdxChar := (nat * char)%type.

(** [char::len_utf8]. *)
Definition len_utf8 (c : char) : nat :=
  if c <? 128 then 1%nat
  else if c <? 2048 then 2%nat
  else if c <? 65536 then 3%nat
  else 4%nat.

(** The code of an ASCII character, for writing character literals. *)
Definition chr (a : ascii) : char := N.of_nat (nat_of_ascii a).

(** Byte length of a string. *)
Fixpoint str_len (s : list char) : nat :=
  match s with
  | [] => 0%nat
  | c :: t => (len_utf8 c + str_len t)%nat
  end.

Fixpoint char_indices_from (o : nat) (s : list char) : list IdxChar :=
  match s with
  | [] => []
  | c :: t => (o, c) :: char_indices_from (o + len_utf8 c)%nat t
  end.

(** [str::char_indices]. *)
Definition char_indices (s : list char) : list IdxChar := char_indices_from 0 s.

(** [str::is_char_boundary]. *)
Definition is_char_boundary (s : list char) (b : nat) : bool :=
  Nat.eqb b (str_len s)
  || existsb (fun ic => Nat.eqb (fst ic) b) (char_indices s).

(** The characters of [s[i..j]], or [None] where Rust's range indexing
    panics (reversed range, end past the buffer, or an end point inside a
    multi-byte character). *)
Definition slice (s : list char) (i j : nat) : option (list char) :=
  if Nat.leb i j && Nat.leb j (str_len s)
     && is_char_boundary s i && is_char_boundary s j
  then Some (map snd (filter (fun ic => Nat.leb i (fst ic) && Nat.ltb (fst ic) j)
                             (char_indices s)))
  else None.

(** ** Data model *)

Inductive SyntaxError :=
| UnclosedComment
| MissingValue
| UnterminatedString
| UnterminatedArray
| UnterminatedObject
| InvalidMemberValueDelimiter.

Module JsonTokenKind.
Inductive t :=
| Null
| True
| False
| Number
| String
| ArrayStart
| ArrayEnd
| ObjectStart
| ObjectEnd
| ObjectMember.
End JsonTokenKind.

(** A [&'s str] borrowed from the source: the byte range [start, end) it
    views. Token texts are such views, never copies. *)
Definition StrView := (nat * nat)%type.

Record JsonToken := mkJsonToken {
  kind : JsonTokenKind.t;
  text : StrView
}.

Inductive ReaderState :=
| Parse
| ParseArrayFirst
| ParseArrayNext
| ParseObjectMemberName
| ParseObjectMemberValue
| ParseObjectMemberNext.

(** [state_stack] is the Rust [Vec] with its top (the end the code pushes to
    and pops from) at the head of the list. [idx_chars] is the not yet
    consumed part of [source.char_indices()]. *)
Record JsonTextReader := mkReader {
  source : list char;
  state_stack : list ReaderState;
  idx_chars : list IdxChar;
  next : option IdxChar
}.

(** [JsonTextReader::new]. *)
Definition new (src : list char) : JsonTextReader :=
  {| source := src; idx_chars := char_indices src; next := None;
     state_stack := [Parse] |}.

(** ** The reader monad: state passing with Rust's [Result] and panics *)

Inductive outcome (A : Type) :=
| Ret (a : A)
| Throw (e : SyntaxError)
| Panic.
Arguments Ret {A} a.
Arguments Throw {A} e.
Arguments Panic {A}.

Definition M (A : Type) := JsonTextReader -> outcome A * JsonTextReader.

Definition ret {A} (a : A) : M A := fun r => (Ret a, r).
Definition throw {A} (e : SyntaxError) : M A := fun r => (Throw e, r).

Definition bind {A B} (m : M A) (k : A -> M B) : M B :=
  fun r =>
    match m r with
    | (Ret a, r1) => k a r1
    | (Throw e, r1) => (Throw e, r1)
    | (Panic, r1) => (Panic, r1)
    end.

Declare Scope reader_scope.
Notation "x <- m ;; k" := (bind m (fun x => k))
  (at level 61, m at next level, right associativity) : reader_scope.
Notation "m ;; k" := (bind m (fun _ => k))
  (at level 61, right associativity) : reader_scope.
Open Scope reader_scope.

(** [opt.ok_or(e)?]. *)
Definition ok_or {A} (e : SyntaxError) (o : option A) : M A :=
  match o with Some a => ret a | None => throw e end.

Definition gets {A} (f : JsonTextReader -> A) : M A := fun r => (Ret (f r), r).

Definition push_state (s : ReaderState) : M unit :=
  fun r => (Ret tt, {| source := source r; state_stack := s :: state_stack r;
                      idx_chars := idx_chars r; next := next r |}).

(** [&self.source[i..j]]: the view, or a panic. *)
Definition str_slice (i j : nat) : M StrView :=
  fun r => match slice (source r) i j with
           | Some _ => (Ret (i, j), r)
           | None => (Panic, r)
           end.

(** The characters a view denotes. *)
Definition view_text (src : list char) (v : StrView) : list char :=
  match slice src (fst v) (snd v) with Some l => l | None => [] end.

(** ** The cursor *)

(** [JsonTextReader::next] (the inherent method): the pushback slot first,
    then the underlying [CharIndices]. *)
Definition next_ich : M (option IdxChar) :=
  fun r =>
    match next r with
    | Some ich => (Ret (Some ich),
                   {| source := source r; state_stack := state_stack r;
                      idx_chars := idx_chars r; next := None |})
    | None =>
        match idx_chars r with
        | [] => (Ret None, r)
        | ich :: rest => (Ret (Some ich),
                          {| source := source r; state_stack := state_stack r;
                             idx_chars := rest; next := None |})
        end
    end.

(** [JsonTextReader::back]: overwrites the slot. *)
Definition back (ich : IdxChar) : M unit :=
  fun r => (Ret tt, {| source := source r; state_stack := state_stack r;
                      idx_chars := idx_chars r; next := Some ich |}).

(** Characters still to be delivered by [next_ich]; every loop of the code
    consumes one per iteration, so this bounds the iterations and is used as
    the fuel of the loops below. *)
Definition remaining (r : JsonTextReader) : nat :=
  (List.length (idx_chars r) + match next r with Some _ => 1 | None => 0 end)%nat.

(** The fuel every loop below starts with. Each iteration but the last
    reads a character, so the loops never reach their [O] case from it (for
    the string and scalar loops, [parse_string_loop_unterminated] and
    [scan_loop_span] prove the results fuel-independent). *)
Definition loop_fuel (r : JsonTextReader) : nat := S (remaining r).

(** [while let Some((_, ch)) = self.next() { if let '\n' | '\r' = ch { break } }] *)
Fixpoint line_comment_loop (fuel : nat) : M unit :=
  match fuel with
  | O => ret tt
  | S f =>
      o <- next_ich ;;
      match o with
      | None => ret tt
      | Some (_, ch) =>
          if (ch =? 10) || (ch =? 13) then ret tt else line_comment_loop f
      end
  end.

Definition line_comment : M unit := fun r => line_comment_loop (loop_fuel r) r.

(** The [/* ... */] loop of [next_clean]. *)
Fixpoint block_comment_loop (fuel : nat) : M unit :=
  match fuel with
  | O => ret tt
  | S f =>
      o <- next_ich ;;
      match o with
      | None => throw UnclosedComment
      | Some (_, ch) =>
          if ch =? chr "*" then
            o2 <- next_ich ;;
            match o2 with
            | Some ich2 =>
                if snd ich2 =? chr "/" then ret tt
                else (back ich2 ;; block_comment_loop f)
            | None => throw UnclosedComment
            end
          else block_comment_loop f
      end
  end.

Definition block_comment : M unit := fun r => block_comment_loop (loop_fuel r) r.

(** [JsonTextReader::next_clean]. In the arm for a [/] followed by some other
    character, the inner binding [Some(ich)] shadows the outer [ich]: the
    code pushes back and returns the character after the [/]. *)
Fixpoint next_clean_loop (fuel : nat) : M (option IdxChar) :=
  match fuel with
  | O => ret None
  | S f =>
      o <- next_ich ;;
      match o with
      | None => ret None
      | Some ich =>
          let ch := snd ich in
          if ch =? chr "/" then
            o2 <- next_ich ;;
            match o2 with
            | None => ret (Some ich)
            | Some ich2 =>
                if snd ich2 =? chr "/" then (line_comment ;; next_clean_loop f)
                else if snd ich2 =? chr "*" then (block_comment ;; next_clean_loop f)
                else (back ich2 ;; ret (Some ich2))
            end
          else if ch =? chr "#" then (line_comment ;; next_clean_loop f)
          else if 32 <? ch then ret (Some ich)
          else next_clean_loop f
      end
  end.

Definition next_clean : M (option IdxChar) := fun r => next_clean_loop (loop_fuel r) r.

(** ** Unquoted-scalar classification *)

(** A Rust string literal as characters. *)
Definition lit (s : String.string) : list char := map chr (String.list_ascii_of_string s).
Arguments lit s%_string.

Fixpoint chars_eqb (a b : list char) : bool :=
  match a, b with
  | [], [] => true
  | x :: a', y :: b' => (x =? y) && chars_eqb a' b'
  | _, _ => false
  end.

(** [char::is_whitespace] (the Unicode White_Space property). *)
Definition is_whitespace (c : char) : bool :=
  ((9 <=? c) && (c <=? 13)) || (c =? 32) || (c =? 133) || (c =? 160)
  || (c =? 5760) || ((8192 <=? c) && (c <=? 8202)) || (c =? 8232)
  || (c =? 8233) || (c =? 8239) || (c =? 8287) || (c =? 12288).

Fixpoint skip_while (p : char -> bool) (l : list char) : list char :=
  match l with
  | c :: t => if p c then skip_while p t else l
  | [] => []
  end.

(** [str::trim_end]. *)
Definition trim_end (l : list char) : list char := rev (skip_while is_whitespace (rev l)).

Definition is_digit (c : char) : bool := (48 <=? c) && (c <=? 57).
Definition to_lower (c : char) : char := if (65 <=? c) && (c <=? 90) then c + 32 else c.

Fixpoint take_digits (l : list char) : nat * list char :=
  match l with
  | c :: t => if is_digit c then let (n, r) := take_digits t in (S n, r) else (0%nat, l)
  | [] => (0%nat, [])
  end.

Definition strip_sign (l : list char) : list char :=
  match l with
  | c :: t => if (c =? chr "+") || (c =? chr "-") then t else l
  | [] => []
  end.

Definition is_nil (l : list char) : bool := match l with [] => true | _ => false end.

(** [Exp ::= 'e' Sign? Digit+], or nothing. *)
Definition exp_ok (l : list char) : bool :=
  match l with
  | [] => true
  | e :: t => (to_lower e =? chr "e")
              && (let (n, rest) := take_digits (strip_sign t) in
                  negb (Nat.eqb n 0) && is_nil rest)
  end.

(** [Number ::= (Digit+ | Digit+ '.' Digit* | Digit* '.' Digit+) Exp?]. *)
Definition number_ok (l : list char) : bool :=
  let (n1, r1) := take_digits l in
  match r1 with
  | c :: r2 =>
      if c =? chr "." then
        let (n2, r3) := take_digits r2 in negb (Nat.eqb (n1 + n2) 0) && exp_ok r3
      else negb (Nat.eqb n1 0) && exp_ok r1
  | [] => negb (Nat.eqb n1 0)
  end.

Definition special_ok (l : list char) : bool :=
  let l' := map to_lower l in
  chars_eqb l' (lit "inf") || chars_eqb l' (lit "infinity") || chars_eqb l' (lit "nan").

(** [s.parse::<f64>().is_ok()]: the grammar documented for [f64::from_str],
    [Float ::= Sign? ('inf' | 'infinity' | 'nan' | Number)], case-insensitive,
    no surrounding whitespace. *)
Definition parse_f64_ok (l : list char) : bool :=
  let l' := strip_sign l in special_ok l' || number_ok l'.

(** The [match tt { "null" => .., "true" => .., "false" => .., other => .. }]
    of [JsonTextReader::parse]. *)
Definition classify (tt : list char) : JsonTokenKind.t :=
  if chars_eqb tt (lit "null") then JsonTokenKind.Null
  else if chars_eqb tt (lit "true") then JsonTokenKind.True
  else if chars_eqb tt (lit "false") then JsonTokenKind.False
  else if parse_f64_ok (trim_end tt) then JsonTokenKind.Number
  else JsonTokenKind.String.

(** ** Strings and unquoted scalars *)

(** [JsonTextReader::parse_string]. The guard [if self.next().is_none()]
    consumes the character after a backslash when it does not fire. *)
Fixpoint parse_string_loop (fuel : nat) (si : nat) (quote : char) : M StrView :=
  match fuel with
  | O => throw UnterminatedString
  | S f =>
      o <- next_ich ;;
      match o with
      | None => throw UnterminatedString
      | Some (ei, ch) =>
          if (ch =? 10) || (ch =? 13) then throw UnterminatedString
          else if ch =? chr "\" then
            o2 <- next_ich ;;
            match o2 with
            | None => throw UnterminatedString
            | Some _ => if ch =? quote then str_slice si (S ei)
                        else parse_string_loop f si quote
            end
          else if ch =? quote then str_slice si (S ei)
          else parse_string_loop f si quote
      end
  end.

Definition parse_string (quote : IdxChar) : M StrView :=
  fun r => parse_string_loop (loop_fuel r) (fst quote) (snd quote) r.

(** The delimiter set of the unquoted-scalar loop: comma, colon, the
    closing and opening brackets and braces, slash, backslash, double quote,
    semicolon, equals sign and hash. *)
Definition reserved : list char :=
  map chr [","; ":"; "]"; "}"; "/"; "\"; "034"; "["; "{"; ";"; "="; "#"]%char.

(** [ch >= ' ' && DELIMS.find(ch).is_none()], [DELIMS] being [reserved]. *)
Definition scalar_char (ch : char) : bool :=
  (32 <=? ch) && negb (existsb (N.eqb ch) reserved).

(** The accumulation loop of [parse]; returns [ei]. *)
Fixpoint scan_loop (fuel : nat) (ei pi : nat) (ch : char) : M nat :=
  match fuel with
  | O => ret ei
  | S f =>
      if scalar_char ch then
        let ei' := (ei + len_utf8 ch)%nat in
        o <- next_ich ;;
        match o with
        | Some (p, c) => scan_loop f ei' p c
        | None => ret ei'
        end
      else (back (pi, ch) ;; ret ei)
  end.

Definition scan (si : nat) (ch : char) : M nat :=
  fun r => scan_loop (loop_fuel r) si si ch r.

(** ** The state machine *)

(** [JsonTextReader::parse]. *)
Definition parse : M JsonToken :=
  o <- next_clean ;;
  ich <- ok_or MissingValue o ;;
  let '(si, ch) := ich in
  if (ch =? chr "034") || (ch =? chr "'") then
    (v <- parse_string ich ;; ret (mkJsonToken JsonTokenKind.String v))
  else if ch =? chr "{" then
    (push_state ParseObjectMemberName ;;
     v <- str_slice si (S si) ;; ret (mkJsonToken JsonTokenKind.ObjectStart v))
  else if ch =? chr "[" then
    (push_state ParseArrayFirst ;;
     v <- str_slice si (S si) ;; ret (mkJsonToken JsonTokenKind.ArrayStart v))
  else
    (ei <- scan si ch ;;
     if Nat.eqb ei si then throw MissingValue
     else (tt <- str_slice si ei ;;
           src <- gets source ;;
           ret (mkJsonToken (classify (view_text src tt)) tt))).

(** [JsonTextReader::parse_object_member_name]. *)
Definition parse_object_member_name : M JsonToken :=
  o <- next_clean ;;
  ich <- ok_or UnterminatedObject o ;;
  if snd ich =? chr "}" then
    (v <- str_slice (fst ich) (S (fst ich)) ;; ret (mkJsonToken JsonTokenKind.ObjectEnd v))
  else
    (back ich ;;
     push_state ParseObjectMemberValue ;;
     token <- parse ;;
     ret (mkJsonToken JsonTokenKind.ObjectMember (text token))).

(** [JsonTextReader::parse_object_member_value]. After [=], the code pushes
    the following character back when it IS a [>], and drops it otherwise. *)
Definition parse_object_member_value : M JsonToken :=
  o <- next_clean ;;
  ich <- ok_or UnterminatedObject o ;;
  (if snd ich =? chr ":" then ret tt
   else if snd ich =? chr "=" then
     (o2 <- next_ich ;;
      ich2 <- ok_or InvalidMemberValueDelimiter o2 ;;
      if snd ich2 =? chr ">" then back ich2 else ret tt)
   else throw InvalidMemberValueDelimiter) ;;
  push_state ParseObjectMemberNext ;;
  parse.

(** [JsonTextReader::parse_object_member_next]. *)
Definition parse_object_member_next : M JsonToken :=
  o <- next_clean ;;
  ich <- ok_or UnterminatedObject o ;;
  if (snd ich =? chr ";") || (snd ich =? chr ",") then
    (o2 <- next_clean ;;
     ich2 <- ok_or UnterminatedObject o2 ;;
     if snd ich2 =? chr "}" then
       (v <- str_slice (fst ich2) (S (fst ich2)) ;; ret (mkJsonToken JsonTokenKind.ObjectEnd v))
     else
       (back ich2 ;; push_state ParseObjectMemberValue ;; parse))
  else if snd ich =? chr "}" then
    (v <- str_slice (fst ich) (S (fst ich)) ;; ret (mkJsonToken JsonTokenKind.ObjectEnd v))
  else throw UnterminatedObject.

(** [JsonTextReader::parse_array_first]. *)
Definition parse_array_first : M JsonToken :=
  o <- next_clean ;;
  ich <- ok_or UnterminatedArray o ;;
  if snd ich =? chr "]" then
    (v <- str_slice (fst ich) (S (fst ich)) ;; ret (mkJsonToken JsonTokenKind.ArrayEnd v))
  else
    (back ich ;; push_state ParseArrayNext ;; parse).

(** [JsonTextReader::parse_array_next]. *)
Definition parse_array_next : M JsonToken :=
  o <- next_clean ;;
  ich <- ok_or UnterminatedArray o ;;
  if (snd ich =? chr ",") || (snd ich =? chr ";") then
    (o2 <- next_clean ;;
     ich2 <- ok_or UnterminatedArray o2 ;;
     if snd ich2 =? chr "]" then
       (v <- str_slice (fst ich2) (S (fst ich2)) ;; ret (mkJsonToken JsonTokenKind.ArrayEnd v))
     else
       (back ich2 ;; push_state ParseArrayNext ;; parse))
  else if snd ich =? chr "]" then
    (v <- str_slice (fst ich) (S (fst ich)) ;; ret (mkJsonToken JsonTokenKind.ArrayEnd v))
  else throw UnterminatedArray.

Definition dispatch (s : ReaderState) : M JsonToken :=
  match s with
  | Parse => parse
  | ParseArrayFirst => parse_array_first
  | ParseArrayNext => parse_array_next
  | ParseObjectMemberName => parse_object_member_name
  | ParseObjectMemberValue => parse_object_member_value
  | ParseObjectMemberNext => parse_object_member_next
  end.

(** [<JsonTextReader as Iterator>::next]: pop a state and run it. [None] is
    the end of the sequence; [Some (Ret t)] is [Some(Ok(t))],
    [Some (Throw e)] is [Some(Err(e))], and [Some Panic] a request that
    panics (its reader is the one the code held when it panicked: every
    slice is taken after the step's last update of the reader). *)
Definition iter_next (r : JsonTextReader) : option (outcome JsonToken) * JsonTextReader :=
  match state_stack r with
  | [] => (None, r)
  | s :: rest =>
      let (o, r') := dispatch s {| source := source r; state_stack := rest;
                                   idx_chars := idx_chars r; next := next r |} in
      (Some o, r')
  end.

(** The driver of main.rs: request items until the sequence ends (or a
    request panics), at most [fuel] times. The flag tells whether the
    sequence was seen to end. *)
Fixpoint run (fuel : nat) (r : JsonTextReader) : list (outcome JsonToken) * bool :=
  match fuel with
  | O => ([], false)
  | S f =>
      match iter_next r with
      | (None, _) => ([], true)
      | (Some Panic, _) => ([Panic], true)
      | (Some o, r') => let (l, b) := run f r' in (o :: l, b)
      end
  end.

Definition tokenize (src : list char) : list (outcome JsonToken) * bool := run 100 (new src).

(** The kinds of the items, errors and panics kept. *)
Definition item_kind (o : outcome JsonToken) : outcome JsonTokenKind.t :=
  match o with Ret t => Ret (kind t) | Throw e => Throw e | Panic => Panic end.

(** Test inputs are ASCII strings in which a backquote stands for a double
    quote (a Rocq string literal cannot hold a single double quote). *)
Definition jq (s : string) : list char :=
  map (fun a => if Ascii.eqb a "`"%char then 34 else chr a) (list_ascii_of_string s).

(** The kinds of the items of a whole run, and whether the run ended. *)
Definition kinds (src : list char) : list (outcome JsonTokenKind.t) * bool :=
  let (l, b) := tokenize src in (map item_kind l, b).

(** * Properties *)

Module K := JsonTokenKind.

(** C1 (code_bug). The member-value delimiter [=>] is not accepted as a
    delimiter: after [=], the code pushes the [>] back instead of consuming
    it, so [{'a'=>1;}] yields the value token [String(">1")] where
    [{"a":1}] yields [Number("1")]; the kind sequences differ. *)
Theorem C1_arrow_delimiter_not_consumed :
  kinds (jq "{'a'=>1;}")
  = ([Ret K.ObjectStart; Ret K.ObjectMember; Ret K.String; Ret K.ObjectEnd], true)
  /\ kinds (jq "{`a`:1}")
  = ([Ret K.ObjectStart; Ret K.ObjectMember; Ret K.Number; Ret K.ObjectEnd], true)
  /\ view_text (jq "{'a'=>1;}") (5%nat, 7%nat) = lit ">1"
  /\ nth_error (fst (tokenize (jq "{'a'=>1;}"))) 2 = Some (Ret (mkJsonToken K.String (5%nat, 7%nat))).
Proof. vm_compute. repeat split; reflexivity. Qed.

(** C2 (code_bug). [next_clean] on a [/] followed by a character other than
    [/] or [*] returns that following character (here the [a] at offset 1),
    not the [/] at offset 0, and leaves the same [a] in the pushback slot, so
    it is delivered a second time by the next read. *)
Theorem C2_lone_slash_returns_next_char :
  next_clean (new (jq "/a"))
  = (Ret (Some (1%nat, chr "a")),
     {| source := jq "/a"; state_stack := [Parse]; idx_chars := [];
        next := Some (1%nat, chr "a") |})
  /\ next_ich (snd (next_clean (new (jq "/a"))))
     = (Ret (Some (1%nat, chr "a")),
        {| source := jq "/a"; state_stack := [Parse]; idx_chars := []; next := None |}).
Proof. split; reflexivity. Qed.

(** C3 (code_bug). The first request on the two-byte input [/a] panics: the
    unquoted-scalar scan reads the [a] twice (see C2), reaches [ei = 3] and
    slices [source[1..3]] past the end of the buffer. *)
Theorem C3_slash_input_panics :
  tokenize (jq "/a") = ([Panic], true)
  /\ scan 1 (chr "a") (snd (next_clean (new (jq "/a")))) = (Ret 3%nat,
       {| source := jq "/a"; state_stack := [Parse]; idx_chars := [];
          next := None |})
  /\ slice (jq "/a") 1 3 = None.
Proof. vm_compute. repeat split; reflexivity. Qed.

(** C5 (code_bug). On [{"k":/ab,"m":1}] the value token is [String("ab,")]:
    its view covers bytes 6..9, which includes the comma at offset 8; that
    same comma is then consumed again as the member separator before the
    next member ["m"] (bytes 9..12). *)
Theorem C5_token_text_overruns_lexeme :
  tokenize (jq "{`k`:/ab,`m`:1}")
  = ([Ret (mkJsonToken K.ObjectStart (0, 1)%nat);
      Ret (mkJsonToken K.ObjectMember (1, 4)%nat);
      Ret (mkJsonToken K.String (6, 9)%nat);
      Ret (mkJsonToken K.String (9, 12)%nat);
      Ret (mkJsonToken K.Number (13, 14)%nat);
      Ret (mkJsonToken K.ObjectEnd (14, 15)%nat)], true)
  /\ view_text (jq "{`k`:/ab,`m`:1}") (6, 9)%nat = lit "ab,"
  /\ nth_error (char_indices (jq "{`k`:/ab,`m`:1}")) 8 = Some (8%nat, chr ",").
Proof. vm_compute. repeat split; reflexivity. Qed.

(** C6. Each unterminated or malformed input ends in the matching error
    kind, after the listed tokens, and the sequence then ends. *)
Theorem C6_error_kinds :
  kinds (jq "`abc") = ([Throw UnterminatedString], true)
  /\ kinds (jq "[1,2")
     = ([Ret K.ArrayStart; Ret K.Number; Ret K.Number; Throw UnterminatedArray], true)
  /\ kinds (jq "{`a`:1")
     = ([Ret K.ObjectStart; Ret K.ObjectMember; Ret K.Number; Throw UnterminatedObject], true)
  /\ kinds (jq "/* unterminated") = ([Throw UnclosedComment], true)
  /\ kinds (jq "{`a` 1}")
     = ([Ret K.ObjectStart; Ret K.ObjectMember; Throw InvalidMemberValueDelimiter], true)
  /\ kinds [] = ([Throw MissingValue], true).
Proof. vm_compute. repeat split; reflexivity. Qed.

(** C9. Iteration goes on after an error: on [[,1]] the missing first
    element is [Err(MissingValue)], and the array's remaining element and its
    [ArrayEnd] follow. *)
Theorem C9_tokens_after_error :
  exists src,
    tokenize src
    = ([Ret (mkJsonToken K.ArrayStart (0, 1)%nat); Throw MissingValue;
        Ret (mkJsonToken K.Number (2, 3)%nat);
        Ret (mkJsonToken K.ArrayEnd (3, 4)%nat)], true).
Proof. exists (jq "[,1]"). vm_compute. reflexivity. Qed.

Lemma chars_eqb_true (a b : list char) : chars_eqb a b = true <-> a = b.
Proof.
  revert b; induction a as [|x a IH]; intros [|y b]; simpl;
    split; intro H; try discriminate; try reflexivity.
  - apply andb_prop in H as [H1 H2]. apply N.eqb_eq in H1.
    apply IH in H2. subst. reflexivity.
  - injection H as -> ->. rewrite N.eqb_refl. simpl. apply IH. reflexivity.
Qed.

(** C10. Classification of unquoted scalars: exactly the texts [null],
    [true], [false] are keywords (case-sensitively); the listed numerals are
    numbers and the other listed texts strings, also through the reader. *)
Theorem C10_unquoted_classification :
  classify (lit "null") = K.Null /\ classify (lit "true") = K.True
  /\ classify (lit "false") = K.False /\ classify (lit "NULL") = K.String
  /\ classify (lit "123") = K.Number /\ classify (lit "-1.5e10") = K.Number
  /\ classify (lit "0.5") = K.Number /\ classify (lit "abc") = K.String
  /\ classify (lit "1.2.3") = K.String
  /\ map (fun s => kinds (lit s))
       ["null"; "true"; "false"; "NULL"; "123"; "-1.5e10"; "0.5"; "abc"; "1.2.3"]%string
     = [([Ret K.Null], true); ([Ret K.True], true); ([Ret K.False], true);
        ([Ret K.String], true); ([Ret K.Number], true); ([Ret K.Number], true);
        ([Ret K.Number], true); ([Ret K.String], true); ([Ret K.String], true)]
  /\ (forall tt, classify tt = K.Null <-> tt = lit "null")
  /\ (forall tt, classify tt = K.True <-> tt = lit "true")
  /\ (forall tt, classify tt = K.False <-> tt = lit "false").
Proof.
  split; [reflexivity|]. split; [reflexivity|]. split; [reflexivity|].
  split; [reflexivity|]. split; [reflexivity|]. split; [reflexivity|].
  split; [reflexivity|]. split; [reflexivity|]. split; [reflexivity|].
  split; [vm_compute; reflexivity|].
  repeat split; intro H;
    [| subst; reflexivity | | subst; reflexivity | | subst; reflexivity];
    unfold classify in H;
    destruct (chars_eqb tt (lit "null")) eqn:E1;
    try (apply chars_eqb_true; assumption);
    destruct (chars_eqb tt (lit "true")) eqn:E2;
    try (apply chars_eqb_true; assumption);
    destruct (chars_eqb tt (lit "false")) eqn:E3;
    try (apply chars_eqb_true; assumption);
    destruct (parse_f64_ok (trim_end tt)); discriminate.
Qed.

(** ** Reasoning about the reader monad *)

Lemma bind_inv {A B} (m : M A) (k : A -> M B) r o r' :
  bind m k r = (o, r') ->
  (exists a r1, m r = (Ret a, r1) /\ k a r1 = (o, r')) \/
  (exists e, m r = (Throw e, r') /\ o = Throw e) \/
  (m r = (Panic, r') /\ o = Panic).
Proof.
  unfold bind. destruct (m r) as [[a|e|] r1]; intro H.
  - left. eauto.
  - right; left. injection H as <- <-. eauto.
  - right; right. injection H as <- <-. auto.
Qed.

Lemma bind_ret {A B} (m : M A) (k : A -> M B) r a r1 :
  m r = (Ret a, r1) -> bind m k r = k a r1.
Proof. unfold bind. intros ->. reflexivity. Qed.

(** The characters [next_ich] will deliver, in order. *)
Definition pending (r : JsonTextReader) : list IdxChar :=
  match next r with Some x => [x] | None => [] end ++ idx_chars r.

Lemma remaining_pending r : remaining r = List.length (pending r).
Proof. unfold remaining, pending. destruct (next r); simpl; lia. Qed.

Lemma next_ich_inv r o r' :
  next_ich r = (o, r') ->
  state_stack r' = state_stack r /\ source r' = source r /\
  ((o = Ret None /\ pending r = [] /\ r' = r) \/
   (exists x, o = Ret (Some x) /\ pending r = x :: pending r' /\ next r' = None)).
Proof.
  unfold next_ich, pending. destruct r as [src st ics [x|]]; simpl.
  - intro H; injection H as <- <-; simpl. repeat split; right; eauto.
  - destruct ics as [|x ics]; intro H; injection H as <- <-; simpl.
    + repeat split. left; auto.
    + repeat split. right; eauto.
Qed.

Lemma back_eq x r :
  back x r = (Ret tt, {| source := source r; state_stack := state_stack r;
                         idx_chars := idx_chars r; next := Some x |}).
Proof. reflexivity. Qed.

Lemma str_slice_not_throw i j r e r' : str_slice i j r <> (Throw e, r').
Proof. unfold str_slice. destruct (slice (source r) i j); discriminate. Qed.

Ltac binv H :=
  apply bind_inv in H;
  destruct H as [(?a & ?r & ?Hm & H) | [(?e & ?Hm & ?Ho) | (?Hm & ?Ho)]];
  [cbv beta in H | |].

(** ** Quoted strings (C7) *)

(** Modelled from the spec's words: a quoted string whose characters after
    the opening quote are [l] is unterminated when the input ends before a
    matching quote, at an unescaped line feed or carriage return, or right
    after a backslash; the character after a backslash is skipped
    unconditionally. *)
Fixpoint string_unterminated_spec (quote : char) (l : list char) : bool :=
  match l with
  | [] => true
  | c :: t =>
      if c =? quote then false
      else if (c =? 10) || (c =? 13) then true
      else if c =? chr "\" then
        match t with
        | [] => true
        | _ :: t' => string_unterminated_spec quote t'
        end
      else string_unterminated_spec quote t
  end.

Lemma parse_string_loop_unterminated fuel si quote r :
  (quote = 34 \/ quote = 39) ->
  (List.length (pending r) < fuel)%nat ->
  (fst (parse_string_loop fuel si quote r) = Throw UnterminatedString
   <-> string_unterminated_spec quote (map snd (pending r)) = true).
Proof.
  intros Hq. revert r. induction fuel as [|f IH]; intros r Hf; [lia|].
  cbn [parse_string_loop].
  destruct (next_ich r) as [o1 r1] eqn:E.
  pose proof (next_ich_inv _ _ _ E) as (_ & _ & [(-> & Hp & ->) | (x & -> & Hp & _)]).
  - rewrite (bind_ret _ _ _ _ _ E). rewrite Hp. simpl. tauto.
  - rewrite (bind_ret _ _ _ _ _ E). rewrite Hp. destruct x as [ei ch].
    cbn [map fst snd string_unterminated_spec].
    rewrite Hp in Hf; simpl in Hf.
    destruct (N.eqb_spec ch quote) as [Heq|Hne].
    + subst ch. replace ((quote =? 10) || (quote =? 13)) with false
        by (destruct Hq; subst; reflexivity).
      replace (quote =? chr "\") with false by (destruct Hq; subst; reflexivity).
      rewrite ?N.eqb_refl. split; [|discriminate].
      intro H. destruct (str_slice si (S ei) r1) as [o2 r2] eqn:E2.
      simpl in H. subst o2. destruct (str_slice_not_throw _ _ _ _ _ E2).
    + destruct ((ch =? 10) || (ch =? 13)); [simpl; tauto|].
      destruct (N.eqb_spec ch (chr "\")) as [Hb|Hb].
      * destruct (next_ich r1) as [o2 r2] eqn:E2.
        pose proof (next_ich_inv _ _ _ E2) as (_ & _ & [(-> & Hp2 & ->) | (y & -> & Hp2 & _)]).
        -- rewrite (bind_ret _ _ _ _ _ E2). rewrite Hp2. simpl. tauto.
        -- rewrite (bind_ret _ _ _ _ _ E2). rewrite Hp2. simpl.
           destruct (N.eqb_spec ch quote); [contradiction|].
           apply IH. rewrite Hp2 in Hf. simpl in Hf. lia.
      * apply IH. lia.
Qed.

(** C7. Started at an opening double or single quote, the quoted-string scan
    fails with [UnterminatedString] exactly when the characters still to be
    read end before a matching unescaped quote, reach an unescaped line feed
    or carriage return, or end right after a backslash; the character after
    a backslash (a quote or a line break included) is skipped
    unconditionally. *)
Theorem C7_parse_string_unterminated quote r :
  (snd quote = chr "034" \/ snd quote = chr "'") ->
  (fst (parse_string quote r) = Throw UnterminatedString
   <-> string_unterminated_spec (snd quote) (map snd (pending r)) = true).
Proof.
  intro Hq. unfold parse_string, loop_fuel.
  apply parse_string_loop_unterminated.
  - exact Hq.
  - rewrite remaining_pending. lia.
Qed.

Lemma C7_parse_string_unterminated_witness :
  (snd (0%nat, chr "034") = chr "034" \/ snd (0%nat, chr "034") = chr "'")
  /\ (fst (parse_string (0%nat, chr "034") (snd (next_ich (new (jq "`a\`")))))
        = Throw UnterminatedString
      <-> string_unterminated_spec (chr "034")
            (map snd (pending (snd (next_ich (new (jq "`a\`")))))) = true).
Proof.
  split; [left; reflexivity|].
  apply C7_parse_string_unterminated. left. reflexivity.
Defined.

(** ** Unquoted scalars (C4) *)

(** The longest prefix of characters accepted by the scan, and the rest. *)
Fixpoint scalar_span (l : list IdxChar) : list IdxChar * list IdxChar :=
  match l with
  | [] => ([], [])
  | x :: t =>
      if scalar_char (snd x) then let (a, b) := scalar_span t in (x :: a, b)
      else ([], l)
  end.

(** UTF-8 byte length of a run of characters. *)
Definition bytes (l : list IdxChar) : nat :=
  fold_right (fun x n => (len_utf8 (snd x) + n)%nat) 0%nat l.

(** The reader once the characters [stop] remain, the first of them (if any)
    pushed back. *)
Definition after_scan (r : JsonTextReader) (stop : list IdxChar) : JsonTextReader :=
  {| source := source r; state_stack := state_stack r;
     idx_chars := match stop with [] => [] | _ :: t => t end;
     next := match stop with [] => None | x :: _ => Some x end |}.

Lemma scan_loop_span fuel ei pi ch r :
  next r = None ->
  (List.length (pending r) < fuel)%nat ->
  scan_loop fuel ei pi ch r
  = (Ret (ei + bytes (fst (scalar_span ((pi, ch) :: pending r))))%nat,
     after_scan r (snd (scalar_span ((pi, ch) :: pending r)))).
Proof.
  revert ei pi ch r. induction fuel as [|f IH]; intros ei pi ch r Hn Hf; [lia|].
  cbn [scan_loop scalar_span fst snd]. destruct (scalar_char ch) eqn:Hc.
  - destruct (next_ich r) as [o1 r1] eqn:E.
    pose proof (next_ich_inv _ _ _ E) as (Hs & Hsrc & [(-> & Hp & ->) | ((p, c) & -> & Hp & Hn1)]).
    + rewrite (bind_ret _ _ _ _ _ E). rewrite Hp. simpl.
      unfold pending in Hp. rewrite Hn in Hp. simpl in Hp.
      destruct r as [src st ics nx]; simpl in *; subst. unfold after_scan, ret; simpl.
      rewrite ?Hc. simpl. f_equal. f_equal. lia.
    + rewrite (bind_ret _ _ _ _ _ E). rewrite Hp.
      rewrite Hp in Hf. simpl in Hf.
      rewrite (IH _ _ _ _ Hn1 ltac:(lia)).
      rewrite ?Hc. unfold IdxChar, char in *.
      destruct (scalar_span ((p, c) :: pending r1)) as [a b]. cbn [fst snd bytes fold_right].
      unfold after_scan. rewrite Hs, Hsrc. f_equal. f_equal. lia.
  - rewrite (bind_ret _ _ _ _ _ (back_eq _ _)). rewrite ?Hc. simpl.
    unfold after_scan, pending, ret.
    rewrite Hn. simpl. f_equal. f_equal. lia.
Qed.

(** C4 (amended). The unquoted-scalar scan started at the character [ch]
    (offset [si]) with an empty pushback slot accumulates exactly the longest
    run of characters that are at least U+0020 and not reserved delimiters
    (so a space is accepted), returns the end offset [si] plus the run's byte
    length, and stops at end of input or at the first other character, which
    is left in the pushback slot with the rest of the input unread. *)
Theorem C4_scan_accumulates si ch r :
  next r = None ->
  (forall c, scalar_char c = true <-> (32 <= c /\ ~ In c reserved))
  /\ scalar_char (chr " ") = true
  /\ scan si ch r
     = (Ret (si + bytes (fst (scalar_span ((si, ch) :: pending r))))%nat,
        after_scan r (snd (scalar_span ((si, ch) :: pending r)))).
Proof.
  intro Hn. split; [|split; [reflexivity|]].
  - intro c. unfold scalar_char. rewrite andb_true_iff, negb_true_iff, N.leb_le.
    split; intros [H1 H2]; split; auto.
    + intro Hin. assert (existsb (N.eqb c) reserved = true) as Hx.
      { apply existsb_exists. exists c. split; [exact Hin | apply N.eqb_refl]. }
      congruence.
    + destruct (existsb (N.eqb c) reserved) eqn:Hx; [|reflexivity].
      apply existsb_exists in Hx as (d & Hd & Heq). apply N.eqb_eq in Heq.
      subst. contradiction.
  - unfold scan, loop_fuel. apply scan_loop_span; [exact Hn|].
    rewrite remaining_pending. lia.
Qed.

Lemma C4_scan_accumulates_witness :
  next (snd (next_ich (new (jq "a b,")))) = None
  /\ ((forall c, scalar_char c = true <-> (32 <= c /\ ~ In c reserved))
      /\ scalar_char (chr " ") = true
      /\ scan 0 (chr "a") (snd (next_ich (new (jq "a b,"))))
         = (Ret (0 + bytes (fst (scalar_span ((0%nat, chr "a")
                   :: pending (snd (next_ich (new (jq "a b,"))))))))%nat,
            after_scan (snd (next_ich (new (jq "a b,"))))
              (snd (scalar_span ((0%nat, chr "a")
                   :: pending (snd (next_ich (new (jq "a b,"))))))))).
Proof.
  split; [reflexivity|].
  apply C4_scan_accumulates. reflexivity.
Defined.

(** C4 (counterexample). A space does not end an unquoted scalar: [a b] is
    the single token [String("a b")]. *)
Lemma C4_space_inside_scalar :
  tokenize (jq "a b") = ([Ret (mkJsonToken K.String (0, 3)%nat)], true)
  /\ view_text (jq "a b") (0, 3)%nat = lit "a b"
  /\ In (chr " ") (view_text (jq "a b") (0, 3)%nat).
Proof. vm_compute. repeat split; auto. Qed.

(** ** Every request makes progress (C8) *)

(** Weight of a continuation: the two states that may hand over to another
    state without consuming input weigh more than the state they hand over
    to. *)
Definition weight (s : ReaderState) : nat :=
  match s with
  | ParseArrayFirst | ParseObjectMemberName => 2
  | _ => 1
  end.

Definition stack_weight (l : list ReaderState) : nat :=
  fold_right (fun s n => (weight s + n)%nat) 0%nat l.

Definition measure (r : JsonTextReader) : nat :=
  (3 * remaining r + stack_weight (state_stack r))%nat.

Ltac norm H :=
  cbv beta iota zeta delta [ret throw ok_or gets push_state back str_slice] in H.

Lemma next_ich_rem r o r' :
  next_ich r = (o, r') ->
  state_stack r' = state_stack r /\
  ((o = Ret None /\ remaining r' = remaining r) \/
   (exists x, o = Ret (Some x) /\ S (remaining r') = remaining r)).
Proof.
  intro H. destruct (next_ich_inv _ _ _ H) as (Hs & _ & [(-> & _ & ->) | (x & -> & Hp & _)]);
    split; auto.
  right. exists x. split; auto. rewrite !remaining_pending, Hp. reflexivity.
Qed.

Lemma back_rem x r : (remaining (snd (back x r)) <= S (remaining r))%nat /\
  state_stack (snd (back x r)) = state_stack r.
Proof. unfold back, remaining; simpl. destruct (next r); simpl; split; auto; lia. Qed.

Lemma line_comment_loop_le fuel r o r' :
  line_comment_loop fuel r = (o, r') ->
  state_stack r' = state_stack r /\ (remaining r' <= remaining r)%nat.
Proof.
  revert r o r'; induction fuel as [|f IH]; intros r o r' H; cbn [line_comment_loop] in H.
  - norm H. injection H as _ <-. auto.
  - binv H.
    + apply next_ich_rem in Hm as (Hs & [([= ->] & Hr) | (x & [= ->] & Hr)]); norm H.
      * injection H as _ <-. split; auto; lia.
      * destruct x as [p ch]. destruct ((ch =? 10) || (ch =? 13)); norm H.
        -- injection H as _ <-. split; auto; lia.
        -- apply IH in H as [H1 H2]. split; [congruence | lia].
    + apply next_ich_rem in Hm as (Hs & [(? & _) | (? & ? & _)]); discriminate.
    + apply next_ich_rem in Hm as (Hs & [(? & _) | (? & ? & _)]); discriminate.
Qed.

Lemma line_comment_le r o r' :
  line_comment r = (o, r') ->
  state_stack r' = state_stack r /\ (remaining r' <= remaining r)%nat.
Proof. apply line_comment_loop_le. Qed.

Lemma block_comment_loop_le fuel r o r' :
  block_comment_loop fuel r = (o, r') ->
  state_stack r' = state_stack r /\ (remaining r' <= remaining r)%nat.
Proof.
  revert r o r'; induction fuel as [|f IH]; intros r o r' H; cbn [block_comment_loop] in H.
  - norm H. injection H as _ <-. auto.
  - binv H.
    + apply next_ich_rem in Hm as (Hs & [([= ->] & Hr) | (x & [= ->] & Hr)]); norm H.
      * injection H as _ <-. split; auto; lia.
      * destruct x as [p ch]. destruct (ch =? chr "*"); norm H.
        -- binv H.
           ++ apply next_ich_rem in Hm as (Hs2 & [([= ->] & Hr2) | (y & [= ->] & Hr2)]); norm H.
              ** injection H as _ <-. split; [congruence | lia].
              ** destruct (snd y =? chr "/"); norm H.
                 --- injection H as _ <-. split; [congruence | lia].
                 --- apply IH in H as [H1 H2]. simpl in H1, H2.
                     unfold remaining in *. split; [congruence|].
                     destruct (next r1), (next r0); simpl in *; lia.
           ++ apply next_ich_rem in Hm as (_ & [(? & _) | (? & ? & _)]); discriminate.
           ++ apply next_ich_rem in Hm as (_ & [(? & _) | (? & ? & _)]); discriminate.
        -- apply IH in H as [H1 H2]. split; [congruence | lia].
    + apply next_ich_rem in Hm as (Hs & [(? & _) | (? & ? & _)]); discriminate.
    + apply next_ich_rem in Hm as (Hs & [(? & _) | (? & ? & _)]); discriminate.
Qed.

Ltac no_throw_next Hm :=
  apply next_ich_rem in Hm as (_ & [(? & _) | (? & ? & _)]); discriminate.

Lemma next_clean_loop_le fuel r o r' :
  next_clean_loop fuel r = (o, r') ->
  state_stack r' = state_stack r /\ (remaining r' <= remaining r)%nat /\
  (forall x, o = Ret (Some x) -> (remaining r' < remaining r)%nat).
Proof.
  revert r o r'; induction fuel as [|f IH]; intros r o r' H; cbn [next_clean_loop] in H.
  - norm H. injection H as <- <-. repeat split; auto. intros x Hx; discriminate.
  - binv H; [|no_throw_next Hm|no_throw_next Hm].
    apply next_ich_rem in Hm as (Hs & [([= ->] & Hr) | (x & [= ->] & Hr)]); norm H.
    + injection H as <- <-. repeat split; auto; [lia|]. intros ? Hx; discriminate.
    + destruct (snd x =? chr "/").
      * binv H; [|no_throw_next Hm|no_throw_next Hm].
        apply next_ich_rem in Hm as (Hs2 & [([= ->] & Hr2) | (y & [= ->] & Hr2)]); norm H.
        -- injection H as <- <-. repeat split; [congruence | lia | intros; lia].
        -- destruct (snd y =? chr "/"); [|destruct (snd y =? chr "*")].
           ++ binv H; apply line_comment_le in Hm as [Hs3 Hr3].
              ** apply IH in H as (H1 & H2 & H3). repeat split; [congruence | lia |].
                 intros z Hz. specialize (H3 z Hz). lia.
              ** subst. repeat split; [congruence | lia | intros; discriminate].
              ** subst. repeat split; [congruence | lia | intros; discriminate].
           ++ binv H; apply block_comment_loop_le in Hm as [Hs3 Hr3].
              ** apply IH in H as (H1 & H2 & H3). repeat split; [congruence | lia |].
                 intros z Hz. specialize (H3 z Hz). lia.
              ** subst. repeat split; [congruence | lia | intros; discriminate].
              ** subst. repeat split; [congruence | lia | intros; discriminate].
           ++ injection H as <- <-. unfold remaining in *; simpl.
              destruct (next r), (next r0), (next r1); simpl in *; repeat split; try congruence; intros; lia.
      * destruct (snd x =? chr "#"); [|destruct (32 <? snd x)].
        -- binv H; apply line_comment_le in Hm as [Hs3 Hr3].
           ++ apply IH in H as (H1 & H2 & H3). repeat split; [congruence | lia |].
              intros z Hz. specialize (H3 z Hz). lia.
           ++ subst. repeat split; [congruence | lia | intros; discriminate].
           ++ subst. repeat split; [congruence | lia | intros; discriminate].
        -- injection H as <- <-. repeat split; [congruence | lia | intros; lia].
        -- apply IH in H as (H1 & H2 & H3). repeat split; [congruence | lia |].
           intros z Hz. specialize (H3 z Hz). lia.
Qed.

Lemma next_clean_le r o r' :
  next_clean r = (o, r') ->
  state_stack r' = state_stack r /\ (remaining r' <= remaining r)%nat /\
  (forall x, o = Ret (Some x) -> (remaining r' < remaining r)%nat).
Proof. apply next_clean_loop_le. Qed.

Lemma str_slice_inv i j r o r' : str_slice i j r = (o, r') -> r' = r.
Proof. unfold str_slice. destruct (slice (source r) i j); intro H; injection H; auto. Qed.

Lemma parse_string_loop_le fuel si q r o r' :
  parse_string_loop fuel si q r = (o, r') ->
  state_stack r' = state_stack r /\ (remaining r' <= remaining r)%nat.
Proof.
  revert r o r'; induction fuel as [|f IH]; intros r o r' H; cbn [parse_string_loop] in H.
  - norm H. injection H as _ <-. auto.
  - binv H; [|no_throw_next Hm|no_throw_next Hm].
    apply next_ich_rem in Hm as (Hs & [([= ->] & Hr) | (x & [= ->] & Hr)]); norm H.
    + injection H as _ <-. split; auto; lia.
    + destruct x as [ei ch]. destruct ((ch =? 10) || (ch =? 13)); norm H.
      { injection H as _ <-. split; auto; lia. }
      destruct (ch =? chr "\"); [|destruct (ch =? q)].
      * binv H; [|no_throw_next Hm|no_throw_next Hm].
        apply next_ich_rem in Hm as (Hs2 & [([= ->] & Hr2) | (y & [= ->] & Hr2)]); norm H.
        -- injection H as _ <-. split; [congruence | lia].
        -- destruct (ch =? q).
           ++ apply str_slice_inv in H. subst. split; [congruence | lia].
           ++ apply IH in H as [H1 H2]. split; [congruence | lia].
      * apply str_slice_inv in H. subst. split; [congruence | lia].
      * apply IH in H as [H1 H2]. split; [congruence | lia].
Qed.

Lemma scan_loop_le fuel ei pi ch r o r' :
  scan_loop fuel ei pi ch r = (o, r') ->
  state_stack r' = state_stack r /\ (remaining r' <= S (remaining r))%nat.
Proof.
  revert ei pi ch r o r'; induction fuel as [|f IH]; intros ei pi ch r o r' H;
    cbn [scan_loop] in H.
  - norm H. injection H as _ <-. auto.
  - destruct (scalar_char ch).
    + binv H; [|no_throw_next Hm|no_throw_next Hm].
      apply next_ich_rem in Hm as (Hs & [([= ->] & Hr) | (x & [= ->] & Hr)]); norm H.
      * injection H as _ <-. split; auto; lia.
      * destruct x as [p c]. apply IH in H as [H1 H2]. split; [congruence | lia].
    + norm H. injection H as _ <-. unfold remaining; simpl.
      destruct (next r); simpl; split; auto; lia.
Qed.

Lemma bind_ret_l {A B} (a : A) (k : A -> M B) : bind (ret a) k = k a.
Proof. reflexivity. Qed.

Lemma bind_throw_l {A B} (e : SyntaxError) (k : A -> M B) : bind (throw e) k = throw e.
Proof. reflexivity. Qed.

Lemma push_state_eq s r :
  push_state s r = (Ret tt, {| source := source r; state_stack := s :: state_stack r;
                               idx_chars := idx_chars r; next := next r |}).
Proof. reflexivity. Qed.

(** [parse] never raises the measure: it consumes at least the character it
    starts from whenever it pushes a continuation. *)
Lemma parse_measure r o r' :
  parse r = (o, r') -> (measure r' <= measure r)%nat.
Proof.
  unfold parse, measure. intro H.
  binv H; apply next_clean_le in Hm as (Hs & Hle & Hlt);
    [| subst; rewrite Hs; lia | subst; rewrite Hs; lia].
  destruct a as [[si ch]|]; cbn [ok_or] in H;
    [rewrite bind_ret_l in H; cbv beta iota zeta in H
    |rewrite bind_throw_l in H; norm H; injection H as _ <-; rewrite Hs; lia].
  specialize (Hlt _ eq_refl).
  destruct ((ch =? chr "034") || (ch =? chr "'")); [|destruct (ch =? chr "{"); [|destruct (ch =? chr "[")]].
  - binv H.
    + apply parse_string_loop_le in Hm as [Hs2 Hr2]. norm H. injection H as _ <-.
      rewrite Hs2, Hs. lia.
    + apply parse_string_loop_le in Hm as [Hs2 Hr2]. rewrite Hs2, Hs. lia.
    + apply parse_string_loop_le in Hm as [Hs2 Hr2]. rewrite Hs2, Hs. lia.
  - rewrite (bind_ret _ _ _ _ _ (push_state_eq _ _)) in H.
    binv H; apply str_slice_inv in Hm; subst;
      [norm H; injection H as _ <-|..]; simpl; rewrite Hs; unfold remaining in *; simpl in *; lia.
  - rewrite (bind_ret _ _ _ _ _ (push_state_eq _ _)) in H.
    binv H; apply str_slice_inv in Hm; subst;
      [norm H; injection H as _ <-|..]; simpl; rewrite Hs; unfold remaining in *; simpl in *; lia.
  - binv H; apply scan_loop_le in Hm as [Hs2 Hr2];
      [| subst; rewrite Hs2, Hs; lia | subst; rewrite Hs2, Hs; lia].
    destruct (Nat.eqb a si); norm H; [injection H as _ <-; rewrite Hs2, Hs; lia|].
    binv H; apply str_slice_inv in Hm; subst;
      [norm H; injection H as _ <-|..]; rewrite Hs2, Hs; lia.
Qed.

Lemma back_push_then (p : M JsonToken)
  (Hp : forall r o r', p r = (o, r') -> (measure r' <= measure r)%nat)
  ich s r1 o r' :
  (back ich ;; push_state s ;; p) r1 = (o, r') ->
  (measure r' <= 3 * S (remaining r1) + stack_weight (state_stack r1) + weight s)%nat.
Proof.
  intro H. rewrite (bind_ret _ _ _ _ _ (back_eq _ _)) in H.
  rewrite (bind_ret _ _ _ _ _ (push_state_eq _ _)) in H.
  apply Hp in H. unfold measure, remaining in *. simpl in *.
  destruct (next r1); simpl in *; lia.
Qed.

Lemma parse_then_member_measure r o r' :
  (token <- parse ;; ret (mkJsonToken JsonTokenKind.ObjectMember (text token))) r = (o, r') ->
  (measure r' <= measure r)%nat.
Proof.
  intro H. binv H; apply parse_measure in Hm; [norm H; injection H as _ <-|subst..]; exact Hm.
Qed.

(** The closing-bracket arm: [str_slice] then [ret]. *)
Lemma slice_ret_state k i j r o r' :
  (v <- str_slice i j ;; ret (mkJsonToken k v)) r = (o, r') -> r' = r.
Proof.
  intro H. binv H; apply str_slice_inv in Hm; subst; [norm H; injection H as _ <-|..]; reflexivity.
Qed.

Lemma measure_push s r :
  measure {| source := source r; state_stack := s :: state_stack r;
             idx_chars := idx_chars r; next := next r |} = (measure r + weight s)%nat.
Proof. unfold measure, remaining. simpl. lia. Qed.

Lemma dispatch_measure s r o r' :
  dispatch s r = (o, r') -> (measure r' < measure r + weight s)%nat.
Proof.
  intro H. destruct s; cbn [dispatch weight] in *.
  - apply parse_measure in H. lia.
  - (* ParseArrayFirst *)
    unfold parse_array_first in H.
    binv H; [| apply next_clean_le in Hm as (Hs & Hle & _); subst; unfold measure; rewrite Hs; lia
             | apply next_clean_le in Hm as (Hs & Hle & _); subst; unfold measure; rewrite Hs; lia].
    apply next_clean_le in Hm as (Hs & Hle & Hlt).
    destruct a as [ich|]; cbn [ok_or] in H;
      [rewrite bind_ret_l in H; cbv beta iota zeta in H
      |rewrite bind_throw_l in H; norm H; injection H as _ <-; unfold measure; rewrite Hs; lia].
    specialize (Hlt _ eq_refl).
    destruct (snd ich =? chr "]").
    + apply slice_ret_state in H. subst. unfold measure. rewrite Hs. lia.
    + apply back_push_then in H; [|exact parse_measure].
      unfold measure in *. rewrite Hs in H. cbn [weight] in H. lia.
  - (* ParseArrayNext *)
    unfold parse_array_next in H.
    binv H; [| apply next_clean_le in Hm as (Hs & Hle & _); subst; unfold measure; rewrite Hs; lia
             | apply next_clean_le in Hm as (Hs & Hle & _); subst; unfold measure; rewrite Hs; lia].
    apply next_clean_le in Hm as (Hs & Hle & Hlt).
    destruct a as [ich|]; cbn [ok_or] in H;
      [rewrite bind_ret_l in H; cbv beta iota zeta in H
      |rewrite bind_throw_l in H; norm H; injection H as _ <-; unfold measure; rewrite Hs; lia].
    specialize (Hlt _ eq_refl).
    destruct ((snd ich =? chr ",") || (snd ich =? chr ";")); [|destruct (snd ich =? chr "]")].
    + binv H; [| apply next_clean_le in Hm as (Hs2 & Hle2 & _); subst; unfold measure; rewrite Hs2, Hs; lia
               | apply next_clean_le in Hm as (Hs2 & Hle2 & _); subst; unfold measure; rewrite Hs2, Hs; lia].
      apply next_clean_le in Hm as (Hs2 & Hle2 & Hlt2).
      destruct a as [ich2|]; cbn [ok_or] in H;
        [rewrite bind_ret_l in H; cbv beta iota zeta in H
        |rewrite bind_throw_l in H; norm H; injection H as _ <-; unfold measure; rewrite Hs2, Hs; lia].
      specialize (Hlt2 _ eq_refl).
      destruct (snd ich2 =? chr "]").
      * apply slice_ret_state in H. subst. unfold measure. rewrite Hs2, Hs. lia.
      * apply back_push_then in H; [|exact parse_measure].
        unfold measure in *. rewrite Hs2, Hs in H. cbn [weight] in H. lia.
    + apply slice_ret_state in H. subst. unfold measure. rewrite Hs. lia.
    + norm H. injection H as _ <-. unfold measure. rewrite Hs. lia.
  - (* ParseObjectMemberName *)
    unfold parse_object_member_name in H.
    binv H; [| apply next_clean_le in Hm as (Hs & Hle & _); subst; unfold measure; rewrite Hs; lia
             | apply next_clean_le in Hm as (Hs & Hle & _); subst; unfold measure; rewrite Hs; lia].
    apply next_clean_le in Hm as (Hs & Hle & Hlt).
    destruct a as [ich|]; cbn [ok_or] in H;
      [rewrite bind_ret_l in H; cbv beta iota zeta in H
      |rewrite bind_throw_l in H; norm H; injection H as _ <-; unfold measure; rewrite Hs; lia].
    specialize (Hlt _ eq_refl).
    destruct (snd ich =? chr "}").
    + apply slice_ret_state in H. subst. unfold measure. rewrite Hs. lia.
    + apply back_push_then in H; [|exact parse_then_member_measure].
      unfold measure in *. rewrite Hs in H. cbn [weight] in H. lia.
  - (* ParseObjectMemberValue *)
    unfold parse_object_member_value in H.
    binv H; [| apply next_clean_le in Hm as (Hs & Hle & _); subst; unfold measure; rewrite Hs; lia
             | apply next_clean_le in Hm as (Hs & Hle & _); subst; unfold measure; rewrite Hs; lia].
    apply next_clean_le in Hm as (Hs & Hle & Hlt).
    destruct a as [ich|]; cbn [ok_or] in H;
      [rewrite bind_ret_l in H; cbv beta iota zeta in H
      |rewrite bind_throw_l in H; norm H; injection H as _ <-; unfold measure; rewrite Hs; lia].
    specialize (Hlt _ eq_refl).
    assert (Hd : forall o2 r2,
      (if snd ich =? chr ":" then ret tt
       else if snd ich =? chr "=" then
         (o2 <- next_ich ;;
          ich2 <- ok_or InvalidMemberValueDelimiter o2 ;;
          if snd ich2 =? chr ">" then back ich2 else ret tt)
       else throw InvalidMemberValueDelimiter) r0 = (o2, r2) ->
      state_stack r2 = state_stack r0 /\ (remaining r2 <= remaining r0)%nat).
    { intros o2 r2 Hx.
      destruct (snd ich =? chr ":"); [norm Hx; injection Hx as _ <-; auto|].
      destruct (snd ich =? chr "="); [|norm Hx; injection Hx as _ <-; auto].
      binv Hx; [|no_throw_next Hm|no_throw_next Hm].
      apply next_ich_rem in Hm as (Hs3 & [([= ->] & Hr3) | (y & [= ->] & Hr3)]); cbn [ok_or] in Hx.
      - rewrite bind_throw_l in Hx. norm Hx. injection Hx as _ <-. split; [congruence | lia].
      - rewrite bind_ret_l in Hx. destruct (snd y =? chr ">"); norm Hx; injection Hx as _ <-;
          unfold remaining in *; simpl in *; split; try congruence;
          destruct (next r1), (next r0); simpl in *; lia. }
    binv H.
    + apply Hd in Hm as [Hs2 Hr2].
      rewrite (bind_ret _ _ _ _ _ (push_state_eq _ _)) in H.
      apply parse_measure in H. rewrite measure_push in H.
      unfold measure in *. rewrite Hs2, Hs in H. cbn [weight] in H. lia.
    + apply Hd in Hm as [Hs2 Hr2]. subst. unfold measure. rewrite Hs2, Hs. lia.
    + apply Hd in Hm as [Hs2 Hr2]. subst. unfold measure. rewrite Hs2, Hs. lia.
  - (* ParseObjectMemberNext *)
    unfold parse_object_member_next in H.
    binv H; [| apply next_clean_le in Hm as (Hs & Hle & _); subst; unfold measure; rewrite Hs; lia
             | apply next_clean_le in Hm as (Hs & Hle & _); subst; unfold measure; rewrite Hs; lia].
    apply next_clean_le in Hm as (Hs & Hle & Hlt).
    destruct a as [ich|]; cbn [ok_or] in H;
      [rewrite bind_ret_l in H; cbv beta iota zeta in H
      |rewrite bind_throw_l in H; norm H; injection H as _ <-; unfold measure; rewrite Hs; lia].
    specialize (Hlt _ eq_refl).
    destruct ((snd ich =? chr ";") || (snd ich =? chr ",")); [|destruct (snd ich =? chr "}")].
    + binv H; [| apply next_clean_le in Hm as (Hs2 & Hle2 & _); subst; unfold measure; rewrite Hs2, Hs; lia
               | apply next_clean_le in Hm as (Hs2 & Hle2 & _); subst; unfold measure; rewrite Hs2, Hs; lia].
      apply next_clean_le in Hm as (Hs2 & Hle2 & Hlt2).
      destruct a as [ich2|]; cbn [ok_or] in H;
        [rewrite bind_ret_l in H; cbv beta iota zeta in H
        |rewrite bind_throw_l in H; norm H; injection H as _ <-; unfold measure; rewrite Hs2, Hs; lia].
      specialize (Hlt2 _ eq_refl).
      destruct (snd ich2 =? chr "}").
      * apply slice_ret_state in H. subst. unfold measure. rewrite Hs2, Hs. lia.
      * apply back_push_then in H; [|exact parse_measure].
        unfold measure in *. rewrite Hs2, Hs in H. cbn [weight] in H. lia.
    + apply slice_ret_state in H. subst. unfold measure. rewrite Hs. lia.
    + norm H. injection H as _ <-. unfold measure. rewrite Hs. lia.
Qed.

Lemma iter_next_measure r :
  state_stack r <> [] -> (measure (snd (iter_next r)) < measure r)%nat.
Proof.
  unfold iter_next. destruct (state_stack r) as [|s rest] eqn:E; [congruence|]. intros _.
  destruct (dispatch s _) as [o r'] eqn:Hd. simpl. apply dispatch_measure in Hd.
  unfold measure, remaining in *. simpl in Hd. rewrite E. simpl. lia.
Qed.

Lemma iter_next_empty r : state_stack r = [] -> iter_next r = (None, r).
Proof. unfold iter_next. intros ->. reflexivity. Qed.

(** The reader after [n] requests. *)
Definition iter_state (n : nat) (r : JsonTextReader) : JsonTextReader :=
  Nat.iter n (fun r => snd (iter_next r)) r.

Lemma iter_state_reaches_empty r : exists n, state_stack (iter_state n r) = [].
Proof.
  remember (measure r) as m eqn:Hm. revert r Hm.
  induction m as [m IH] using (well_founded_induction lt_wf). intros r Hm.
  destruct (state_stack r) eqn:E.
  - exists 0%nat. exact E.
  - assert (Hlt : (measure (snd (iter_next r)) < m)%nat)
      by (subst; apply iter_next_measure; congruence).
    destruct (IH _ Hlt _ eq_refl) as [n Hn].
    exists (S n). unfold iter_state in *. rewrite Nat.iter_succ_r. exact Hn.
Qed.

Lemma iter_state_stays n r :
  state_stack (iter_state n r) = [] -> forall m, iter_state (m + n) r = iter_state n r.
Proof.
  intros He m. induction m as [|m IH]; [reflexivity|].
  change (iter_state (S m + n) r) with (snd (iter_next (iter_state (m + n) r))).
  rewrite IH, (iter_next_empty _ He). reflexivity.
Qed.

(** C8. For every input the continuation stack is empty after finitely many
    requests, and from then on every request returns [None] and leaves the
    reader unchanged. (A request that panics, see C3, ends the sequence
    earlier; the reader it leaves is the one considered here.) *)
Theorem C8_finite_sequence src :
  exists n, state_stack (iter_state n (new src)) = []
    /\ forall k, (n <= k)%nat ->
       iter_next (iter_state k (new src)) = (None, iter_state n (new src)).
Proof.
  destruct (iter_state_reaches_empty (new src)) as [n Hn].
  exists n. split; [exact Hn|]. intros k Hk.
  replace k with ((k - n) + n)%nat by lia.
  rewrite (iter_state_stays _ _ Hn). apply iter_next_empty. exact Hn.
Qed.


(** * Further properties of the reader

    Invariants of the reader (every token text is a slice of the source),
    the shape of the stack, comment skipping, and round trips for single
    values. *)

(** ** UTF-8 offsets of [char_indices] *)

Lemma len_utf8_pos c : (1 <= len_utf8 c)%nat.
Proof. unfold len_utf8. destruct (c <? 128), (c <? 2048), (c <? 65536); lia. Qed.

Lemma str_len_app a b : str_len (a ++ b) = (str_len a + str_len b)%nat.
Proof. induction a as [|c a IH]; simpl; lia. Qed.

Lemma cif_app o a b :
  char_indices_from o (a ++ b) = char_indices_from o a ++ char_indices_from (o + str_len a) b.
Proof.
  revert o; induction a as [|c a IH]; intro o; simpl.
  - rewrite Nat.add_0_r. reflexivity.
  - rewrite IH. do 3 f_equal. lia.
Qed.

Lemma cif_ge o s x : In x (char_indices_from o s) -> (o <= fst x)%nat.
Proof.
  revert o; induction s as [|c s IH]; intros o H; simpl in H; [contradiction|].
  destruct H as [<-|H]; [simpl; lia|]. apply IH in H. lia.
Qed.

Lemma cif_lt o s x : In x (char_indices_from o s) -> (fst x < o + str_len s)%nat.
Proof.
  revert o; induction s as [|c s IH]; intros o H; simpl in H; [contradiction|].
  pose proof (len_utf8_pos c).
  destruct H as [<-|H]; [simpl; lia|]. apply IH in H. simpl. lia.
Qed.

Lemma cif_map_snd o s : map snd (char_indices_from o s) = s.
Proof. revert o; induction s as [|c s IH]; intro o; simpl; [|rewrite IH]; reflexivity. Qed.

Lemma cif_nil o s : char_indices_from o s = [] -> s = [].
Proof. destruct s; simpl; [auto | discriminate]. Qed.

(** A prefix of the source ends on a character boundary. *)
Lemma boundary_prefix s a b : s = a ++ b -> is_char_boundary s (str_len a) = true.
Proof.
  intros ->. unfold is_char_boundary, char_indices. apply orb_true_iff.
  destruct b as [|c b].
  - left. rewrite app_nil_r. apply Nat.eqb_refl.
  - right. apply existsb_exists. exists (str_len a, c). split; [|apply Nat.eqb_refl].
    rewrite cif_app. apply in_or_app. right. simpl. left. reflexivity.
Qed.

Lemma filter_none {A} (f : A -> bool) l :
  (forall x, In x l -> f x = false) -> filter f l = [].
Proof.
  induction l as [|x l IH]; intro H; simpl; [reflexivity|].
  rewrite H by (left; reflexivity). apply IH. intros y Hy. apply H. right. exact Hy.
Qed.

(** A slice from one boundary to a later one succeeds. *)
Lemma slice_ok s i j :
  (i <= j)%nat -> (j <= str_len s)%nat ->
  is_char_boundary s i = true -> is_char_boundary s j = true -> slice s i j <> None.
Proof.
  intros H1 H2 H3 H4. unfold slice.
  rewrite (proj2 (Nat.leb_le _ _) H1), (proj2 (Nat.leb_le _ _) H2), H3, H4. discriminate.
Qed.

(** The slice of a prefix is that prefix. *)
Lemma slice_prefix a b : slice (a ++ b) 0 (str_len a) = Some a.
Proof.
  unfold slice.
  rewrite (boundary_prefix (a ++ b) [] (a ++ b) eq_refl : is_char_boundary (a ++ b) 0 = true).
  rewrite (boundary_prefix (a ++ b) a b eq_refl).
  rewrite str_len_app.
  replace (Nat.leb (str_len a) (str_len a + str_len b)) with true
    by (symmetry; apply Nat.leb_le; lia). simpl.
  f_equal. unfold char_indices. rewrite cif_app, filter_app.
  rewrite (forallb_filter_id _ (char_indices_from 0 a)), (filter_none _ (char_indices_from _ b)).
  - rewrite app_nil_r. apply cif_map_snd.
  - intros x Hx. apply cif_ge in Hx. apply Nat.ltb_ge. lia.
  - apply forallb_forall. intros x Hx. apply cif_lt in Hx. apply Nat.ltb_lt. lia.
Qed.


(** ** Readers whose unread characters are a suffix of the source *)

(** The characters still to be delivered are the [char_indices] of a suffix
    of the source. *)
Definition good (r : JsonTextReader) : Prop :=
  exists a b, source r = a ++ b /\ pending r = char_indices_from (str_len a) b.

(** [x] is the character just read from [r]: the slot is empty and [x]
    followed by the unread characters is a suffix of the source. *)
Definition fresh (x : IdxChar) (r : JsonTextReader) : Prop :=
  next r = None /\
  exists a c b, source r = a ++ c :: b /\ x = (str_len a, c)
    /\ idx_chars r = char_indices_from (str_len a + len_utf8 c) b.

Lemma fresh_good x r : fresh x r -> good r.
Proof.
  intros (Hn & a & c & b & Hs & -> & Hi). exists (a ++ [c]), b. split.
  - rewrite Hs, <- app_assoc. reflexivity.
  - unfold pending. rewrite Hn, Hi, str_len_app. simpl. do 2 f_equal. lia.
Qed.

Lemma back_good x r : fresh x r -> good (snd (back x r)).
Proof.
  intros (Hn & a & c & b & Hs & -> & Hi). exists a, (c :: b). split.
  - exact Hs.
  - unfold pending. simpl. rewrite Hi. reflexivity.
Qed.

Lemma fresh_in i c r : fresh (i, c) r -> In c (source r).
Proof.
  intros (_ & a & c' & b & Hs & Hx & _). injection Hx as -> ->. rewrite Hs.
  apply in_or_app. right. left. reflexivity.
Qed.

Lemma fresh_bounds i c r :
  fresh (i, c) r ->
  is_char_boundary (source r) i = true
  /\ is_char_boundary (source r) (i + len_utf8 c) = true
  /\ (i + len_utf8 c <= str_len (source r))%nat.
Proof.
  intros (_ & a & c' & b & Hs & Hx & _). injection Hx as -> ->.
  split; [|split].
  - apply (boundary_prefix _ a (c' :: b) Hs).
  - replace (str_len a + len_utf8 c')%nat with (str_len (a ++ [c'])) by (rewrite str_len_app; simpl; lia).
    apply (boundary_prefix _ _ b). rewrite Hs, <- app_assoc. reflexivity.
  - rewrite Hs, str_len_app. simpl. lia.
Qed.

Lemma fresh_later i c r y : fresh (i, c) r -> In y (idx_chars r) -> (i < fst y)%nat.
Proof.
  intros (_ & a & c' & b & Hs & Hx & Hi) Hy. injection Hx as -> ->.
  rewrite Hi in Hy. apply cif_ge in Hy. pose proof (len_utf8_pos c'). lia.
Qed.

Lemma next_ich_good r :
  good r ->
  next_ich r = (Ret None, r)
  \/ exists x r', next_ich r = (Ret (Some x), r') /\ fresh x r'
                  /\ source r' = source r /\ state_stack r' = state_stack r.
Proof.
  destruct r as [src st ics [y|]]; intros (a & b & Hs & Hp);
    unfold pending in Hp; simpl in *.
  - right. destruct b as [|c b]; [discriminate|]. simpl in Hp.
    injection Hp as -> Hi. eexists _, _. split; [reflexivity|].
    split; [|auto]. split; [reflexivity|]. exists a, c, b. auto.
  - destruct b as [|c b]; simpl in Hp; subst ics; [left; reflexivity|].
    right. eexists _, _. split; [reflexivity|].
    split; [|auto]. split; [reflexivity|]. exists a, c, b. auto.
Qed.

Lemma line_comment_loop_good f r o r' :
  good r -> line_comment_loop f r = (o, r') ->
  good r' /\ source r' = source r /\ state_stack r' = state_stack r /\ o = Ret tt.
Proof.
  revert r; induction f as [|f IH]; intros r Hg H; cbn [line_comment_loop] in H.
  - injection H as <- <-. auto.
  - destruct (next_ich_good r Hg) as [E | (x & r1 & E & Hf & Hs & Hst)];
      rewrite (bind_ret _ _ _ _ _ E) in H.
    + injection H as <- <-. auto.
    + destruct x as [p ch]. destruct ((ch =? 10) || (ch =? 13)).
      * injection H as <- <-. repeat split; auto. apply (fresh_good _ _ Hf).
      * apply IH in H as (H1 & H2 & H3 & H4); [|apply (fresh_good _ _ Hf)].
        repeat split; auto; congruence.
Qed.

(** Outcome of a cleaning read on a good reader. *)
Definition clean_post (o : outcome (option IdxChar)) (r : JsonTextReader) : Prop :=
  match o with
  | Ret (Some x) => fresh x r
  | Ret None | Throw _ => good r
  | Panic => False
  end.

Lemma next_clean_loop_good f r o r' :
  good r -> ~ In (chr "/") (source r) -> next_clean_loop f r = (o, r') ->
  source r' = source r /\ state_stack r' = state_stack r /\ clean_post o r'.
Proof.
  revert r; induction f as [|f IH]; intros r Hg Hns H; cbn [next_clean_loop] in H.
  - injection H as <- <-. auto.
  - destruct (next_ich_good r Hg) as [E | (x & r1 & E & Hf & Hs & Hst)];
      rewrite (bind_ret _ _ _ _ _ E) in H.
    + injection H as <- <-. auto.
    + cbv beta iota zeta in H. destruct x as [p ch]. cbn [snd] in H.
      destruct (N.eqb_spec ch (chr "/")) as [Hsl|_].
      { subst ch. apply fresh_in in Hf. rewrite Hs in Hf. contradiction. }
      destruct (ch =? chr "#").
      * unfold line_comment in H. binv H.
        -- apply line_comment_loop_good in Hm as (Hg2 & Hs2 & Hst2 & _);
             [|apply (fresh_good _ _ Hf)].
           apply IH in H as (H1 & H2 & H3); [| exact Hg2 | congruence].
           repeat split; auto; congruence.
        -- apply line_comment_loop_good in Hm as (_ & _ & _ & ?); [discriminate|].
           apply (fresh_good _ _ Hf).
        -- apply line_comment_loop_good in Hm as (_ & _ & _ & ?); [discriminate|].
           apply (fresh_good _ _ Hf).
      * destruct (32 <? ch).
        -- injection H as <- <-. auto.
        -- apply IH in H as (H1 & H2 & H3); [| apply (fresh_good _ _ Hf) | congruence].
           repeat split; auto; congruence.
Qed.

Lemma next_clean_good r o r' :
  good r -> ~ In (chr "/") (source r) -> next_clean r = (o, r') ->
  source r' = source r /\ state_stack r' = state_stack r /\ clean_post o r'.
Proof. apply next_clean_loop_good. Qed.


(** A token text that is a non-empty slice of the source. *)
Definition text_ok (s : list char) (v : StrView) : Prop :=
  (fst v < snd v)%nat /\ slice s (fst v) (snd v) <> None.

(** What a step of the reader keeps on a source without a slash: the
    source, the suffix invariant, no panic, and non-empty token texts. *)
Definition tok_post {A} (txt : A -> StrView) (o : outcome A) (src : list char)
  (r' : JsonTextReader) : Prop :=
  source r' = src /\ good r' /\
  match o with
  | Ret t => text_ok src (txt t)
  | Throw _ => True
  | Panic => False
  end.

Lemma str_slice_ret i j r : slice (source r) i j <> None -> str_slice i j r = (Ret (i, j), r).
Proof. unfold str_slice. destruct (slice (source r) i j); [reflexivity | congruence]. Qed.

Lemma push_good s r : good r -> good (snd (push_state s r)).
Proof. intros (a & b & Hs & Hp). exists a, b. split; assumption. Qed.

Lemma parse_string_loop_good f si q r o r' :
  good r -> (q = 34 \/ q = 39) -> (forall y, In y (pending r) -> (si < fst y)%nat) ->
  is_char_boundary (source r) si = true ->
  parse_string_loop f si q r = (o, r') -> tok_post (fun v => v) o (source r) r'.
Proof.
  revert r; induction f as [|f IH]; intros r Hg Hq Hlt Hb H; cbn [parse_string_loop] in H.
  - injection H as <- <-. repeat split; auto.
  - destruct (next_ich_good r Hg) as [E | (x & r1 & E & Hf & Hs & Hst)];
      rewrite (bind_ret _ _ _ _ _ E) in H.
    + injection H as <- <-. repeat split; auto.
    + destruct (next_ich_inv _ _ _ E) as (_ & _ & [(? & _) | (x' & Hx' & Hp & _)]);
        [discriminate|]. injection Hx' as <-.
      destruct x as [ei ch]. cbv beta iota zeta in H.
      assert (Hei : (si < ei)%nat) by (apply (Hlt (ei, ch)); rewrite Hp; left; reflexivity).
      destruct ((ch =? 10) || (ch =? 13)).
      { injection H as <- <-. repeat split; auto. apply (fresh_good _ _ Hf). }
      destruct (N.eqb_spec ch (chr "\")) as [Hbs|Hbs].
      * assert (Hg1 := fresh_good _ _ Hf).
        destruct (next_ich_good r1 Hg1) as [E2 | (y & r2 & E2 & Hf2 & Hs2 & _)];
          rewrite (bind_ret _ _ _ _ _ E2) in H.
        -- injection H as <- <-. repeat split; auto.
        -- destruct (next_ich_inv _ _ _ E2) as (_ & _ & [(? & _) | (y' & Hy' & Hp2 & _)]);
             [discriminate|]. injection Hy' as <-.
           replace (ch =? q) with false in H
             by (subst ch; destruct Hq; subst q; reflexivity).
           apply IH in H as (H1 & H2 & H3).
           ++ rewrite Hs2, Hs in H1. rewrite Hs2, Hs in H3. repeat split; auto.
           ++ apply (fresh_good _ _ Hf2).
           ++ exact Hq.
           ++ intros z Hz. apply Hlt. rewrite Hp, Hp2. right. right. exact Hz.
           ++ rewrite Hs2, Hs. exact Hb.
      * destruct (N.eqb_spec ch q) as [Heq|Hne].
        -- destruct (fresh_bounds _ _ _ Hf) as (_ & Hb2 & Hle).
           assert (Hl : len_utf8 ch = 1%nat) by (subst ch; destruct Hq; subst q; reflexivity).
           rewrite Hl, Nat.add_1_r in Hb2, Hle.
           assert (Hsl : slice (source r1) si (S ei) <> None)
             by (apply slice_ok; [lia | exact Hle | rewrite Hs; exact Hb | exact Hb2]).
           rewrite (str_slice_ret _ _ _ Hsl) in H. injection H as <- <-.
           split; [exact Hs|]. split; [apply (fresh_good _ _ Hf)|].
           split; [simpl; lia|]. rewrite <- Hs. exact Hsl.
        -- apply IH in H as (H1 & H2 & H3).
           ++ rewrite Hs in H1, H3. repeat split; auto.
           ++ apply (fresh_good _ _ Hf).
           ++ exact Hq.
           ++ intros z Hz. apply Hlt. rewrite Hp. right. exact Hz.
           ++ rewrite Hs. exact Hb.
Qed.

(** The scalar scan from a character just read ends on a character
    boundary at or after its start. *)
Lemma scan_loop_good f i ch r o r' :
  fresh (i, ch) r -> scan_loop f i i ch r = (o, r') ->
  source r' = source r /\ good r' /\
  exists e, o = Ret e /\ (i <= e)%nat /\ (e <= str_len (source r))%nat
            /\ is_char_boundary (source r) e = true.
Proof.
  revert i ch r; induction f as [|f IH]; intros i ch r Hf H; cbn [scan_loop] in H;
    destruct (fresh_bounds _ _ _ Hf) as (Hb1 & Hb2 & Hle).
  - injection H as <- <-. split; [reflexivity|]. split; [apply (fresh_good _ _ Hf)|].
    exists i. repeat split; auto. lia.
  - destruct (scalar_char ch).
    + destruct (next_ich_good r (fresh_good _ _ Hf)) as [E | (x & r1 & E & Hf1 & Hs & _)];
        rewrite (bind_ret _ _ _ _ _ E) in H.
      * injection H as <- <-. split; [reflexivity|]. split; [apply (fresh_good _ _ Hf)|].
        exists (i + len_utf8 ch)%nat. repeat split; auto. lia.
      * destruct x as [p c].
        assert (Hp : p = (i + len_utf8 ch)%nat).
        { destruct Hf as (Hn & a & c0 & b & Hs0 & Hx & Hi). injection Hx as -> ->.
          destruct (next_ich_inv _ _ _ E) as (_ & _ & [(? & _) | (x' & Hx' & Hp & _)]);
            [discriminate|]. injection Hx' as <-.
          unfold pending in Hp. rewrite Hn, Hi in Hp. simpl in Hp.
          destruct b; simpl in Hp; [discriminate|]. injection Hp as -> _. reflexivity. }
        subst p. apply IH in H as (H1 & H2 & e & H3 & H4 & H5 & H6); [|exact Hf1].
        rewrite Hs in H1, H5, H6. split; [exact H1|]. split; [exact H2|].
        exists e. repeat split; auto. lia.
    + rewrite (bind_ret _ _ _ _ _ (back_eq _ _)) in H. injection H as <- <-.
      split; [reflexivity|]. split; [apply (back_good _ _ Hf)|].
      exists i. repeat split; auto. lia.
Qed.


Lemma bind_eq {A B} (m : M A) (k : A -> M B) r o1 r1 :
  m r = (o1, r1) ->
  bind m k r = match o1 with
               | Ret a => k a r1
               | Throw e => (Throw e, r1)
               | Panic => (Panic, r1)
               end.
Proof. unfold bind. intros ->. reflexivity. Qed.

Lemma fresh_ascii_bounds i c r :
  fresh (i, c) r -> (c < 128) ->
  is_char_boundary (source r) i = true /\ is_char_boundary (source r) (S i) = true
  /\ (S i <= str_len (source r))%nat.
Proof.
  intros Hf Hc. destruct (fresh_bounds _ _ _ Hf) as (H1 & H2 & H3).
  unfold len_utf8 in H2, H3. apply N.ltb_lt in Hc. rewrite Hc, Nat.add_1_r in H2, H3. auto.
Qed.

(** [parse] on a good reader of a source without a slash. *)
Lemma parse_good r o r' :
  good r -> ~ In (chr "/") (source r) -> parse r = (o, r') -> tok_post text o (source r) r'.
Proof.
  intros Hg Hns H. unfold parse in H.
  destruct (next_clean r) as [o1 r1] eqn:E1.
  destruct (next_clean_good _ _ _ Hg Hns E1) as (Hs1 & _ & Hc).
  rewrite (bind_eq _ _ _ _ _ E1) in H.
  destruct o1 as [[[si ch]|]|e|]; cbn [clean_post] in Hc;
    [| | injection H as <- <-; rewrite <- Hs1; repeat split; auto | contradiction].
  2:{ cbn [ok_or] in H. rewrite bind_throw_l in H. injection H as <- <-.
      rewrite <- Hs1. repeat split; auto. }
  cbn [ok_or] in H. rewrite bind_ret_l in H. cbv beta iota in H.
  destruct ((ch =? chr "034") || (ch =? chr "'")) eqn:Eq; [|destruct (N.eqb_spec ch (chr "{")) as [Hob|_];
    [|destruct (N.eqb_spec ch (chr "[")) as [Hab|_]]].
  - destruct (parse_string (si, ch) r1) as [o2 r2] eqn:E2.
    assert (Hq : ch = 34 \/ ch = 39).
    { apply orb_true_iff in Eq as [Eq|Eq]; apply N.eqb_eq in Eq; auto. }
    assert (P := parse_string_loop_good (loop_fuel r1) si ch r1 o2 r2 (fresh_good _ _ Hc) Hq).
    destruct (fresh_bounds _ _ _ Hc) as (Hb & _).
    pose proof E2 as E2u. unfold parse_string in E2u.
    specialize (P (fun y Hy => fresh_later _ _ _ _ Hc ltac:(unfold pending in Hy;
      destruct Hc as [Hn _]; rewrite Hn in Hy; exact Hy)) Hb E2u).
    destruct P as (Hs2 & Hg2 & Ht).
    rewrite (bind_eq _ _ _ _ _ E2) in H. rewrite Hs1 in Hs2, Ht.
    destruct o2 as [v| |]; [|injection H as <- <-; repeat split; auto | contradiction].
    injection H as <- <-. split; [exact Hs2|]. split; [exact Hg2|]. exact Ht.
  - subst ch. rewrite (bind_ret _ _ _ _ _ (push_state_eq _ _)) in H.
    destruct (fresh_ascii_bounds _ _ _ Hc ltac:(reflexivity)) as (Hb1 & Hb2 & Hle).
    assert (Hsl : slice (source r1) si (S si) <> None) by (apply slice_ok; auto).
    erewrite bind_ret in H; [|apply str_slice_ret; exact Hsl]. injection H as <- <-.
    split; [exact Hs1|]. split; [apply push_good, (fresh_good _ _ Hc)|].
    split; [simpl; lia|]. rewrite <- Hs1. exact Hsl.
  - subst ch. rewrite (bind_ret _ _ _ _ _ (push_state_eq _ _)) in H.
    destruct (fresh_ascii_bounds _ _ _ Hc ltac:(reflexivity)) as (Hb1 & Hb2 & Hle).
    assert (Hsl : slice (source r1) si (S si) <> None) by (apply slice_ok; auto).
    erewrite bind_ret in H; [|apply str_slice_ret; exact Hsl]. injection H as <- <-.
    split; [exact Hs1|]. split; [apply push_good, (fresh_good _ _ Hc)|].
    split; [simpl; lia|]. rewrite <- Hs1. exact Hsl.
  - destruct (scan si ch r1) as [o2 r2] eqn:E2.
    pose proof E2 as E2u. unfold scan in E2u.
    destruct (scan_loop_good _ _ _ _ _ _ Hc E2u) as (Hs2 & Hg2 & ei & -> & Hle & Hlen & Hb).
    rewrite (bind_ret _ _ _ _ _ E2) in H.
    destruct (Nat.eqb_spec ei si) as [Heq|Hne].
    + injection H as <- <-. split; [congruence|]. split; auto.
    + assert (Hsl : slice (source r2) si ei <> None).
      { rewrite Hs2. apply slice_ok; [lia | exact Hlen | apply (fresh_bounds _ _ _ Hc) | exact Hb]. }
      rewrite (bind_ret _ _ _ _ _ (str_slice_ret _ _ _ Hsl)) in H. injection H as <- <-.
      split; [congruence|]. split; [exact Hg2|].
      split; [simpl; lia|]. rewrite <- Hs1, <- Hs2. exact Hsl.
Qed.


Lemma clean_bind_good {B} (txt : B -> StrView) e (k : IdxChar -> M B) r o r' :
  good r -> ~ In (chr "/") (source r) ->
  (forall x r1 o r', fresh x r1 -> source r1 = source r -> k x r1 = (o, r') ->
     tok_post txt o (source r) r') ->
  (o1 <- next_clean ;; ich <- ok_or e o1 ;; k ich) r = (o, r') -> tok_post txt o (source r) r'.
Proof.
  intros Hg Hns Hk H.
  destruct (next_clean r) as [o1 r1] eqn:E1.
  destruct (next_clean_good _ _ _ Hg Hns E1) as (Hs1 & _ & Hc).
  rewrite (bind_eq _ _ _ _ _ E1) in H.
  destruct o1 as [[x|]|e'|]; cbn [clean_post] in Hc; [| | | contradiction].
  - cbn [ok_or] in H. rewrite bind_ret_l in H. exact (Hk _ _ _ _ Hc Hs1 H).
  - cbn [ok_or] in H. rewrite bind_throw_l in H. injection H as <- <-.
    repeat split; auto.
  - injection H as <- <-. repeat split; auto.
Qed.

Lemma close_good kd i c r o r' :
  fresh (i, c) r -> c < 128 ->
  (v <- str_slice i (S i) ;; ret (mkJsonToken kd v)) r = (o, r') -> tok_post text o (source r) r'.
Proof.
  intros Hf Hc H. destruct (fresh_ascii_bounds _ _ _ Hf Hc) as (Hb1 & Hb2 & Hle).
  assert (Hsl : slice (source r) i (S i) <> None) by (apply slice_ok; auto).
  rewrite (bind_ret _ _ _ _ _ (str_slice_ret _ _ _ Hsl)) in H. injection H as <- <-.
  split; [reflexivity|]. split; [apply (fresh_good _ _ Hf)|]. split; [simpl; lia | exact Hsl].
Qed.

Lemma back_push_parse_good x s r o r' :
  fresh x r -> ~ In (chr "/") (source r) ->
  (back x ;; push_state s ;; parse) r = (o, r') -> tok_post text o (source r) r'.
Proof.
  intros Hf Hns H. rewrite (bind_ret _ _ _ _ _ (back_eq _ _)) in H.
  rewrite (bind_ret _ _ _ _ _ (push_state_eq _ _)) in H.
  apply parse_good in H; [exact H | | exact Hns].
  apply (push_good s (snd (back x r))), (back_good _ _ Hf).
Qed.

Lemma dispatch_good s r o r' :
  good r -> ~ In (chr "/") (source r) -> dispatch s r = (o, r') -> tok_post text o (source r) r'.
Proof.
  intros Hg Hns H. destruct s; cbn [dispatch] in H.
  - exact (parse_good _ _ _ Hg Hns H).
  - (* ParseArrayFirst *)
    revert H. apply clean_bind_good; [exact Hg | exact Hns|].
    intros [i c] r1 o1 r2 Hf Hs1 H. rewrite <- Hs1.
    destruct (N.eqb_spec (snd (i, c)) (chr "]")) as [Hc|_].
    + simpl in Hc. subst c. apply (close_good _ _ _ _ _ _ Hf (eq_refl _) H).
    + apply (back_push_parse_good _ _ _ _ _ Hf ltac:(rewrite Hs1; exact Hns) H).
  - (* ParseArrayNext *)
    revert H. apply clean_bind_good; [exact Hg | exact Hns|].
    intros [i c] r1 o1 r2 Hf Hs1 H. cbn [snd fst] in H.
    destruct ((c =? chr ",") || (c =? chr ";")); [|destruct (N.eqb_spec c (chr "]")) as [Hc|_]].
    + revert H. rewrite <- Hs1. apply clean_bind_good;
        [apply (fresh_good _ _ Hf) | rewrite Hs1; exact Hns|].
      intros [i2 c2] r3 o3 r4 Hf2 Hs3 H. rewrite <- Hs3.
      destruct (N.eqb_spec (snd (i2, c2)) (chr "]")) as [Hc|_].
      * simpl in Hc. subst c2. apply (close_good _ _ _ _ _ _ Hf2 (eq_refl _) H).
      * apply (back_push_parse_good _ _ _ _ _ Hf2 ltac:(rewrite Hs3, Hs1; exact Hns) H).
    + subst c. rewrite <- Hs1. apply (close_good _ _ _ _ _ _ Hf (eq_refl _) H).
    + injection H as <- <-. repeat split; auto. apply (fresh_good _ _ Hf).
  - (* ParseObjectMemberName *)
    revert H. apply clean_bind_good; [exact Hg | exact Hns|].
    intros [i c] r1 o1 r2 Hf Hs1 H. rewrite <- Hs1.
    destruct (N.eqb_spec (snd (i, c)) (chr "}")) as [Hc|_].
    + simpl in Hc. subst c. apply (close_good _ _ _ _ _ _ Hf (eq_refl _) H).
    + rewrite (bind_ret _ _ _ _ _ (back_eq _ _)) in H.
      rewrite (bind_ret _ _ _ _ _ (push_state_eq _ _)) in H.
      assert (Hg0 : good (snd (push_state ParseObjectMemberValue (snd (back (i, c) r1)))))
        by apply push_good, (back_good _ _ Hf).
      assert (Hns0 : ~ In (chr "/") (source (snd (push_state ParseObjectMemberValue (snd (back (i, c) r1))))))
        by (simpl; rewrite Hs1; exact Hns).
      apply bind_inv in H as [(t & r3 & E3 & H) | [(e & E3 & ->) | (E3 & ->)]];
        apply (parse_good _ _ _ Hg0 Hns0) in E3 as (Hs3 & Hg3 & Ht3); [|repeat split; auto|contradiction].
      injection H as <- <-. simpl in Hs3, Ht3. split; [exact Hs3|]. split; [exact Hg3|]. exact Ht3.
  - (* ParseObjectMemberValue *)
    revert H. apply clean_bind_good; [exact Hg | exact Hns|].
    intros [i c] r1 o1 r2 Hf Hs1 H. rewrite <- Hs1. cbn [snd] in H.
    assert (Hd : forall o3 r3,
      (if c =? chr ":" then ret tt
       else if c =? chr "=" then
         (o2 <- next_ich ;;
          ich2 <- ok_or InvalidMemberValueDelimiter o2 ;;
          if snd ich2 =? chr ">" then back ich2 else ret tt)
       else throw InvalidMemberValueDelimiter) r1 = (o3, r3) ->
      source r3 = source r1 /\ good r3 /\ o3 <> Panic).
    { intros o3 r3 Hx.
      destruct (c =? chr ":"); [injection Hx as <- <-; split; [|split]; [auto | apply (fresh_good _ _ Hf) | discriminate]|].
      destruct (c =? chr "="); [|injection Hx as <- <-; split; [|split]; [auto | apply (fresh_good _ _ Hf) | discriminate]].
      destruct (next_ich_good r1 (fresh_good _ _ Hf)) as [E | (y & r5 & E & Hf5 & Hs5 & _)];
        rewrite (bind_ret _ _ _ _ _ E) in Hx; cbn [ok_or] in Hx.
      - rewrite bind_throw_l in Hx. injection Hx as <- <-.
        split; [|split]; [auto | apply (fresh_good _ _ Hf) | discriminate].
      - rewrite bind_ret_l in Hx. destruct (snd y =? chr ">"); injection Hx as <- <-.
        + split; [|split]; [exact Hs5 | apply (back_good _ _ Hf5) | discriminate].
        + split; [|split]; [exact Hs5 | apply (fresh_good _ _ Hf5) | discriminate]. }
    apply bind_inv in H as [(u & r3 & E3 & H) | [(e & E3 & ->) | (E3 & ->)]];
      apply Hd in E3 as (Hs3 & Hg3 & Hnp); [| subst; repeat split; auto | contradiction].
    rewrite (bind_ret _ _ _ _ _ (push_state_eq _ _)) in H.
    apply parse_good in H as (Hs4 & Hg4 & Ht4);
      [| apply (push_good ParseObjectMemberNext r3), Hg3 | simpl; rewrite Hs3, Hs1; exact Hns].
    simpl in Hs4, Ht4. rewrite Hs3 in Hs4, Ht4. split; [exact Hs4|]. split; [exact Hg4 | exact Ht4].
  - (* ParseObjectMemberNext *)
    revert H. apply clean_bind_good; [exact Hg | exact Hns|].
    intros [i c] r1 o1 r2 Hf Hs1 H. cbn [snd fst] in H.
    destruct ((c =? chr ";") || (c =? chr ",")); [|destruct (N.eqb_spec c (chr "}")) as [Hc|_]].
    + revert H. rewrite <- Hs1. apply clean_bind_good;
        [apply (fresh_good _ _ Hf) | rewrite Hs1; exact Hns|].
      intros [i2 c2] r3 o3 r4 Hf2 Hs3 H. rewrite <- Hs3.
      destruct (N.eqb_spec (snd (i2, c2)) (chr "}")) as [Hc|_].
      * simpl in Hc. subst c2. apply (close_good _ _ _ _ _ _ Hf2 (eq_refl _) H).
      * apply (back_push_parse_good _ _ _ _ _ Hf2 ltac:(rewrite Hs3, Hs1; exact Hns) H).
    + subst c. rewrite <- Hs1. apply (close_good _ _ _ _ _ _ Hf (eq_refl _) H).
    + injection H as <- <-. repeat split; auto. apply (fresh_good _ _ Hf).
Qed.

Lemma iter_next_good r o r' :
  good r -> ~ In (chr "/") (source r) -> iter_next r = (o, r') ->
  source r' = source r /\ good r' /\
  match o with
  | Some (Ret t) => text_ok (source r) (text t)
  | Some Panic => False
  | _ => True
  end.
Proof.
  intros Hg Hns. unfold iter_next. destruct (state_stack r) as [|s rest].
  - intro H. injection H as <- <-. auto.
  - destruct (dispatch s _) as [o1 r1] eqn:E. intro H. injection H as <- <-.
    apply dispatch_good in E as (H1 & H2 & H3); [| exact Hg | exact Hns].
    simpl in H1, H3. split; [exact H1|]. split; [exact H2|]. destruct o1; auto.
Qed.

Lemma new_good src : good (new src).
Proof. exists [], src. split; reflexivity. Qed.

Lemma iter_state_good src n :
  ~ In (chr "/") src ->
  source (iter_state n (new src)) = src /\ good (iter_state n (new src)).
Proof.
  intro Hns. induction n as [|n [IH1 IH2]]; [split; [reflexivity | apply new_good]|].
  change (iter_state (S n) (new src)) with (snd (iter_next (iter_state n (new src)))).
  destruct (iter_next (iter_state n (new src))) as [o r'] eqn:E.
  apply iter_next_good in E as (H1 & H2 & _); [| exact IH2 | rewrite IH1; exact Hns].
  simpl. split; [congruence | exact H2].
Qed.

(** X1. On a source without a [/] no request ever panics, and every token
    the reader yields has a non-empty text that is a valid slice of the
    source (both ends on character boundaries, inside the source). *)
Theorem X1_no_panic_without_slash src n :
  ~ In (chr "/") src ->
  match fst (iter_next (iter_state n (new src))) with
  | Some Panic => False
  | Some (Ret t) => (fst (text t) < snd (text t))%nat
                    /\ slice src (fst (text t)) (snd (text t)) <> None
  | _ => True
  end.
Proof.
  intro Hns. destruct (iter_state_good src n Hns) as [Hs Hg].
  destruct (iter_next (iter_state n (new src))) as [o r'] eqn:E.
  apply iter_next_good in E as (_ & _ & H3); [| exact Hg | rewrite Hs; exact Hns].
  rewrite Hs in H3. exact H3.
Qed.


(** [parse] pushes a continuation only when it opens a container. *)
Lemma parse_stack r o r' :
  parse r = (o, r') ->
  (state_stack r' = state_stack r
   /\ forall t, o = Ret t -> kind t <> K.ObjectStart /\ kind t <> K.ArrayStart)
  \/ (state_stack r' = ParseObjectMemberName :: state_stack r
      /\ (o = Panic \/ exists v, o = Ret (mkJsonToken K.ObjectStart v)))
  \/ (state_stack r' = ParseArrayFirst :: state_stack r
      /\ (o = Panic \/ exists v, o = Ret (mkJsonToken K.ArrayStart v))).
Proof.
  intro H. unfold parse in H.
  destruct (next_clean r) as [o1 r1] eqn:E1.
  destruct (next_clean_le _ _ _ E1) as (Hs1 & _).
  rewrite (bind_eq _ _ _ _ _ E1) in H.
  destruct o1 as [[[si ch]|]|e|];
    [| cbn [ok_or] in H; rewrite bind_throw_l in H
     | | ]; try (injection H as <- <-; left; split; [exact Hs1 | intros t Ht; discriminate]).
  cbn [ok_or] in H. rewrite bind_ret_l in H. cbv beta iota in H.
  destruct ((ch =? chr "034") || (ch =? chr "'")); [|destruct (ch =? chr "{"); [|destruct (ch =? chr "[")]].
  - destruct (parse_string (si, ch) r1) as [o2 r2] eqn:E2.
    apply parse_string_loop_le in E2 as E2'. destruct E2' as [Hs2 _].
    rewrite (bind_eq _ _ _ _ _ E2) in H. left.
    destruct o2; injection H as <- <-; (split; [congruence|]); intros t Ht; try discriminate.
    injection Ht as <-. simpl. split; discriminate.
  - rewrite (bind_ret _ _ _ _ _ (push_state_eq _ _)) in H. right; left.
    apply bind_inv in H as [(v & r3 & E3 & H) | [(e & E3 & ->) | (E3 & ->)]].
    + apply str_slice_inv in E3. subst r3. injection H as <- <-. simpl.
      split; [congruence | right; eauto].
    + destruct (str_slice_not_throw _ _ _ _ _ E3).
    + apply str_slice_inv in E3. subst r'. simpl. split; [congruence | left; reflexivity].
  - rewrite (bind_ret _ _ _ _ _ (push_state_eq _ _)) in H. right; right.
    apply bind_inv in H as [(v & r3 & E3 & H) | [(e & E3 & ->) | (E3 & ->)]].
    + apply str_slice_inv in E3. subst r3. injection H as <- <-. simpl.
      split; [congruence | right; eauto].
    + destruct (str_slice_not_throw _ _ _ _ _ E3).
    + apply str_slice_inv in E3. subst r'. simpl. split; [congruence | left; reflexivity].
  - left. destruct (scan si ch r1) as [o2 r2] eqn:E2.
    pose proof E2 as E2u. unfold scan in E2u. apply scan_loop_le in E2u as [Hs2 _].
    rewrite (bind_eq _ _ _ _ _ E2) in H.
    destruct o2 as [ei| |]; [|injection H as <- <-; split; [congruence | discriminate]..].
    destruct (Nat.eqb ei si); [injection H as <- <-; split; [congruence | discriminate]|].
    apply bind_inv in H as [(v & r3 & E3 & H) | [(e & E3 & ->) | (E3 & ->)]].
    + apply str_slice_inv in E3. subst r3. injection H as <- <-. split; [congruence|]. intros t Ht. injection Ht as <-. simpl.
      unfold classify. destruct (chars_eqb _ (lit "null")); [split; discriminate|].
      destruct (chars_eqb _ (lit "true")); [split; discriminate|].
      destruct (chars_eqb _ (lit "false")); [split; discriminate|].
      destruct (parse_f64_ok _); split; discriminate.
    + destruct (str_slice_not_throw _ _ _ _ _ E3).
    + apply str_slice_inv in E3. subst r'. split; [congruence | discriminate].
Qed.

(** X2. The reader reads one top-level value. Unless the first item opens
    an object or an array, the continuation stack is empty after the first
    request, so the next request already ends the sequence and any text
    after the first value (a second value included) is never looked at. *)
Theorem X2_single_top_level_value src :
  let o := fst (iter_next (new src)) in
  let r1 := snd (iter_next (new src)) in
  (iter_next r1 = (None, r1)
   /\ forall t, o = Some (Ret t) -> kind t <> K.ObjectStart /\ kind t <> K.ArrayStart)
  \/ (state_stack r1 = [ParseObjectMemberName]
      /\ (o = Some Panic \/ exists v, o = Some (Ret (mkJsonToken K.ObjectStart v))))
  \/ (state_stack r1 = [ParseArrayFirst]
      /\ (o = Some Panic \/ exists v, o = Some (Ret (mkJsonToken K.ArrayStart v)))).
Proof.
  cbv zeta. remember (iter_next (new src)) as p eqn:Ep.
  unfold iter_next in Ep. cbn [new state_stack dispatch] in Ep.
  destruct (parse _) as [o r'] eqn:E. subst p. cbn [fst snd].
  apply parse_stack in E as [(Hs & Ht) | [(Hs & Ho) | (Hs & Ho)]]; simpl in Hs.
  - left. split; [apply iter_next_empty, Hs|]. intros t Hot. apply Ht. congruence.
  - right; left. split; [exact Hs|]. destruct Ho as [-> | (v & ->)]; [left | right; eauto]; reflexivity.
  - right; right. split; [exact Hs|]. destruct Ho as [-> | (v & ->)]; [left | right; eauto]; reflexivity.
Qed.

Lemma cif_length o s : List.length (char_indices_from o s) = List.length s.
Proof. revert o; induction s as [|c s IH]; intro o; simpl; [|rewrite IH]; reflexivity. Qed.

Lemma iter_state_measure n r :
  state_stack (iter_state n r) = [] \/ (measure (iter_state n r) + n <= measure r)%nat.
Proof.
  induction n as [|n IH]; [right; simpl; lia|].
  change (iter_state (S n) r) with (snd (iter_next (iter_state n r))).
  destruct (state_stack (iter_state n r)) eqn:E.
  - left. rewrite (iter_next_empty _ E). exact E.
  - destruct IH as [IH|IH]; [congruence|].
    assert (Hlt := iter_next_measure (iter_state n r) ltac:(congruence)).
    destruct (state_stack (snd (iter_next (iter_state n r)))); [left; reflexivity|].
    right. lia.
Qed.

(** X3. A reader over a source of [n] characters yields at most [3 * n + 1]
    items: from request number [3 * n + 2] on, every request returns [None]. *)
Theorem X3_item_count_bound src m :
  iter_next (iter_state (3 * List.length src + 1 + m) (new src))
  = (None, iter_state (3 * List.length src + 1 + m) (new src)).
Proof.
  set (n0 := (3 * List.length src + 1)%nat).
  assert (Hm : measure (new src) = n0).
  { unfold measure, remaining, new, n0, char_indices. simpl. rewrite cif_length. lia. }
  assert (He : state_stack (iter_state n0 (new src)) = []).
  { destruct (iter_state_measure n0 (new src)) as [H|H]; [exact H|].
    rewrite Hm in H. unfold measure in H.
    destruct (state_stack (iter_state n0 (new src))) as [|s l]; [reflexivity|].
    simpl in H. destruct s; simpl in H; lia. }
  rewrite Nat.add_comm, (iter_state_stays _ _ He). apply iter_next_empty, He.
Qed.


(** The reader [r] with the characters [l] left to read and an empty slot. *)
Definition with_input (r : JsonTextReader) (l : list IdxChar) : JsonTextReader :=
  {| source := source r; state_stack := state_stack r; idx_chars := l; next := None |}.

(** No line feed or carriage return. *)
Definition nl_free (l : list char) : bool :=
  forallb (fun c => negb ((c =? 10) || (c =? 13))) l.

(** No [*] immediately followed by [/]. *)
Fixpoint no_close (l : list char) : bool :=
  match l with
  | c :: ((d :: _) as t) => negb ((c =? chr "*") && (d =? chr "/")) && no_close t
  | _ => true
  end.

(** Text [next_clean] skips: a character up to U+0020, a [#] or [//]
    comment up to and including its line break, a [/* */] comment. *)
Inductive trivia : list IdxChar -> Prop :=
| trivia_space x : snd x <= 32 -> trivia [x]
| trivia_hash h body nl :
    snd h = chr "#" -> nl_free (map snd body) = true -> (snd nl = 10 \/ snd nl = 13) ->
    trivia (h :: body ++ [nl])
| trivia_slashes s1 s2 body nl :
    snd s1 = chr "/" -> snd s2 = chr "/" -> nl_free (map snd body) = true ->
    (snd nl = 10 \/ snd nl = 13) -> trivia (s1 :: s2 :: body ++ [nl])
| trivia_block s1 s2 body e1 e2 :
    snd s1 = chr "/" -> snd s2 = chr "*" -> no_close (map snd body) = true ->
    snd e1 = chr "*" -> snd e2 = chr "/" -> trivia (s1 :: s2 :: body ++ [e1; e2]).

Lemma next_clean_loop_fuel f1 f2 r :
  (remaining r < f1)%nat -> (remaining r < f2)%nat ->
  next_clean_loop f1 r = next_clean_loop f2 r.
Proof.
  revert f2 r; induction f1 as [|f1 IH]; intros f2 r H1 H2; [lia|].
  destruct f2 as [|f2]; [lia|]. cbn [next_clean_loop].
  destruct (next_ich r) as [o r1] eqn:E. rewrite !(bind_eq _ _ _ _ _ E).
  destruct (next_ich_rem _ _ _ E) as (_ & [(-> & _) | (x & -> & Hr)]); [reflexivity|].
  cbv beta iota zeta.
  destruct (snd x =? chr "/").
  - destruct (next_ich r1) as [o2 r2] eqn:E2. rewrite !(bind_eq _ _ _ _ _ E2).
    destruct (next_ich_rem _ _ _ E2) as (_ & [(-> & _) | (y & -> & Hr2)]); [reflexivity|].
    destruct (snd y =? chr "/"); [|destruct (snd y =? chr "*"); [|reflexivity]].
    + destruct (line_comment r2) as [o3 r3] eqn:E3. rewrite !(bind_eq _ _ _ _ _ E3).
      destruct o3; try reflexivity. apply line_comment_le in E3 as [_ E3]. apply IH; lia.
    + destruct (block_comment r2) as [o3 r3] eqn:E3. rewrite !(bind_eq _ _ _ _ _ E3).
      destruct o3; try reflexivity. apply block_comment_loop_le in E3 as [_ E3]. apply IH; lia.
  - destruct (snd x =? chr "#").
    + destruct (line_comment r1) as [o3 r3] eqn:E3. rewrite !(bind_eq _ _ _ _ _ E3).
      destruct o3; try reflexivity. apply line_comment_le in E3 as [_ E3]. apply IH; lia.
    + destruct (32 <? snd x); [reflexivity|]. apply IH; lia.
Qed.

Lemma remaining_with_input r l : remaining (with_input r l) = List.length l.
Proof. unfold remaining. simpl. lia. Qed.

Lemma next_clean_with_input r l :
  next_clean (with_input r l) = next_clean_loop (S (List.length l)) (with_input r l).
Proof. unfold next_clean, loop_fuel. rewrite remaining_with_input. reflexivity. Qed.

Lemma line_comment_skip r body nl l f :
  nl_free (map snd body) = true -> (snd nl = 10 \/ snd nl = 13) ->
  (List.length body < f)%nat ->
  line_comment_loop f (with_input r (body ++ nl :: l)) = (Ret tt, with_input r l).
Proof.
  intros Hb Hn. revert f; induction body as [|c body IH]; intros f Hf;
    (destruct f as [|f]; [simpl in Hf; lia|]).
  - cbn. destruct nl as [p ch]. simpl in Hn. destruct Hn as [-> | ->]; reflexivity.
  - cbn [map nl_free forallb] in Hb. apply andb_prop in Hb as [Hc Hb].
    cbn [line_comment_loop app]. unfold bind at 1. cbn [next_ich with_input next idx_chars].
    destruct c as [p ch]. apply negb_true_iff in Hc. simpl in Hc. rewrite Hc.
    apply IH; [exact Hb | simpl in Hf; lia].
Qed.


Lemma block_comment_loop_slot f r d rest :
  block_comment_loop (S f)
    {| source := source r; state_stack := state_stack r; idx_chars := rest; next := Some d |}
  = block_comment_loop (S f) (with_input r (d :: rest)).
Proof. reflexivity. Qed.

Lemma block_comment_skip r body e1 e2 l f :
  no_close (map snd body) = true -> snd e1 = chr "*" -> snd e2 = chr "/" ->
  (List.length body + 2 <= f)%nat ->
  block_comment_loop f (with_input r (body ++ e1 :: e2 :: l)) = (Ret tt, with_input r l).
Proof.
  intros Hb He1 He2. revert f; induction body as [|c body IH]; intros f Hf.
  - destruct f as [|[|f]]; [simpl in Hf; lia | simpl in Hf; lia|].
    destruct e1 as [p1 c1], e2 as [p2 c2]. simpl in He1, He2. subst c1 c2. reflexivity.
  - destruct f as [|f]; [simpl in Hf; lia|].
    cbn [block_comment_loop app]. unfold bind at 1. cbn [next_ich with_input next idx_chars].
    destruct c as [p ch]. cbv beta iota.
    destruct (N.eqb_spec ch (chr "*")) as [Hs|Hs].
    + subst ch. destruct f as [|f]; [simpl in Hf; lia|].
      destruct body as [|d body].
      * cbn [app]. unfold bind at 1. cbn [next_ich next idx_chars].
        destruct e1 as [p1 c1]. simpl in He1. subst c1. cbn [snd].
        change (chr "*" =? chr "/") with false. cbv iota.
        unfold bind at 1. cbn [back].
        destruct f as [|f]; [simpl in Hf; lia|].
        cbn [source state_stack idx_chars next with_input]. rewrite (block_comment_loop_slot _ r). apply (IH eq_refl). simpl. lia.
      * cbn [app]. unfold bind at 1. cbn [next_ich next idx_chars].
        destruct d as [pd cd]. cbn [map no_close] in Hb.
        apply andb_prop in Hb as [Hcd Hb]. cbn [snd].
        destruct (N.eqb_spec cd (chr "/")) as [Hd|Hd].
        { subst cd. discriminate. }
        cbv iota. unfold bind at 1. cbn [back].
        destruct f as [|f]; [simpl in Hf; lia|].
        cbn [source state_stack idx_chars next with_input]. rewrite (block_comment_loop_slot _ r). apply IH; [exact Hb | simpl in Hf |- *; lia].
    + apply IH.
      * destruct body as [|d body]; [reflexivity|]. cbn [map no_close] in Hb |- *.
        apply andb_prop in Hb as [_ Hb]. exact Hb.
      * simpl in Hf. lia.
Qed.

Lemma next_ich_with_input r x l : next_ich (with_input r (x :: l)) = (Ret (Some x), with_input r l).
Proof. reflexivity. Qed.

Lemma next_clean_step r x l f :
  next_clean_loop (S f) (with_input r (x :: l))
  = (let ch := snd x in
     if ch =? chr "/" then
       (o2 <- next_ich ;;
        match o2 with
        | None => ret (Some x)
        | Some ich2 =>
            if snd ich2 =? chr "/" then (line_comment ;; next_clean_loop f)
            else if snd ich2 =? chr "*" then (block_comment ;; next_clean_loop f)
            else (back ich2 ;; ret (Some ich2))
        end)
     else if ch =? chr "#" then (line_comment ;; next_clean_loop f)
     else if 32 <? ch then ret (Some x)
     else next_clean_loop f) (with_input r l).
Proof. reflexivity. Qed.

Lemma trivia_skip r t l :
  trivia t -> next_clean (with_input r (t ++ l)) = next_clean (with_input r l).
Proof.
  intro Ht. rewrite next_clean_with_input.
  destruct Ht as [x Hx | h body nl Hh Hb Hn | s1 s2 body nl Hs1 Hs2 Hb Hn
                 | s1 s2 body e1 e2 Hs1 Hs2 Hb He1 He2];
    cbn [app List.length]; rewrite next_clean_step; cbv zeta.
  - destruct x as [p ch]. cbn [snd] in *.
    replace (ch =? chr "/") with false by (symmetry; apply N.eqb_neq; intro; subst; apply Hx; reflexivity).
    replace (ch =? chr "#") with false by (symmetry; apply N.eqb_neq; intro; subst; apply Hx; reflexivity).
    replace (32 <? ch) with false by (symmetry; apply N.ltb_ge; exact Hx).
    rewrite next_clean_with_input. reflexivity.
  - rewrite Hh. change (chr "#" =? chr "/") with false. change (chr "#" =? chr "#") with true.
    cbv iota. rewrite <- app_assoc. cbn [app].
    unfold line_comment. unfold bind at 1.
    rewrite (line_comment_skip r body nl l).
    + rewrite next_clean_with_input. apply next_clean_loop_fuel; rewrite remaining_with_input;
        rewrite ?length_app; simpl; unfold IdxChar, char in *; lia.
    + exact Hb.
    + exact Hn.
    + unfold loop_fuel. rewrite remaining_with_input, ?length_app. simpl. unfold IdxChar, char in *. lia.
  - rewrite Hs1. change (chr "/" =? chr "/") with true. cbv iota.
    rewrite <- app_assoc. cbn [app]. unfold bind at 1. rewrite next_ich_with_input.
    rewrite Hs2. change (chr "/" =? chr "/") with true. cbv iota.
    unfold line_comment. unfold bind at 1.
    rewrite (line_comment_skip r body nl l).
    + rewrite next_clean_with_input. apply next_clean_loop_fuel; rewrite remaining_with_input;
        rewrite ?length_app; simpl; unfold IdxChar, char in *; lia.
    + exact Hb.
    + exact Hn.
    + unfold loop_fuel. rewrite remaining_with_input, ?length_app. simpl. unfold IdxChar, char in *. lia.
  - rewrite Hs1. change (chr "/" =? chr "/") with true. cbv iota.
    rewrite <- app_assoc. cbn [app]. unfold bind at 1. rewrite next_ich_with_input.
    rewrite Hs2. change (chr "*" =? chr "/") with false. change (chr "*" =? chr "*") with true.
    cbv iota. unfold block_comment. unfold bind at 1.
    rewrite (block_comment_skip r body e1 e2 l).
    + rewrite next_clean_with_input. apply next_clean_loop_fuel; rewrite remaining_with_input;
        rewrite ?length_app; simpl; unfold IdxChar, char in *; lia.
    + exact Hb.
    + exact He1.
    + exact He2.
    + unfold loop_fuel. rewrite remaining_with_input, ?length_app. simpl. unfold IdxChar, char in *. lia.
Qed.


Lemma next_clean_trivia r ts l :
  Forall trivia ts -> next_clean (with_input r (List.concat ts ++ l)) = next_clean (with_input r l).
Proof.
  induction 1 as [|t ts Ht _ IH]; [reflexivity|].
  cbn [List.concat]. rewrite <- app_assoc, trivia_skip by exact Ht. exact IH.
Qed.

(** X4. [next_clean] skips any run of trivia: whitespace and control
    characters, [#] and [//] comments ended by a line feed or carriage
    return, and closed [/* */] comments. Whatever follows decides its
    result alone. *)
Theorem X4_next_clean_skips_trivia r ts l :
  Forall trivia ts -> next_clean (with_input r (List.concat ts ++ l)) = next_clean (with_input r l).
Proof. apply next_clean_trivia. Qed.

(** The reader as [iter_next] hands it to the state popped from [new src]. *)
Lemma iter_next_new src :
  iter_next (new src)
  = let (o, r') := parse (with_input {| source := src; state_stack := []; idx_chars := [];
                                       next := None |} (char_indices src)) in (Some o, r').
Proof. reflexivity. Qed.

(** X5. A source made only of trivia (whitespace, control characters and
    comments) yields [Err(MissingValue)] once; the stack is then empty, so
    the sequence ends. *)
Theorem X5_blank_input src ts :
  Forall trivia ts -> char_indices src = List.concat ts ->
  fst (iter_next (new src)) = Some (Throw MissingValue)
  /\ state_stack (snd (iter_next (new src))) = [].
Proof.
  intros Ht Hc. rewrite iter_next_new.
  set (r0 := {| source := src; state_stack := []; idx_chars := []; next := None |}).
  assert (E : next_clean (with_input r0 (List.concat ts ++ [])) = (Ret None, with_input r0 []))
    by (rewrite (next_clean_trivia _ _ _ Ht); reflexivity).
  rewrite app_nil_r, <- Hc in E. unfold parse. rewrite (bind_eq _ _ _ _ _ E).
  split; reflexivity.
Qed.


(** A string body the scan of [parse_string] reads through for the quote
    [q]: every backslash is followed by some character (which is skipped),
    and no other character is [q], a line feed or a carriage return. *)
Fixpoint body_ok (q : char) (l : list char) : bool :=
  match l with
  | [] => true
  | c :: t =>
      if c =? chr "\" then
        match t with
        | [] => false
        | _ :: t' => body_ok q t'
        end
      else negb ((c =? q) || (c =? 10) || (c =? 13)) && body_ok q t
  end.

Lemma parse_string_body f q si o r body rest :
  (q = 34 \/ q = 39) -> body_ok q body = true -> (List.length body < f)%nat ->
  parse_string_loop f si q (with_input r (char_indices_from o (body ++ q :: rest)))
  = str_slice si (S (o + str_len body))
      (with_input r (char_indices_from (S (o + str_len body)) rest)).
Proof.
  intros Hq. revert o body; induction f as [|f IH]; intros o body Hb Hf; [lia|].
  destruct body as [|c body].
  - cbn [app char_indices_from parse_string_loop].
    unfold bind at 1. rewrite next_ich_with_input. cbv beta iota.
    assert (Hl : len_utf8 q = 1%nat) by (destruct Hq; subst; reflexivity).
    replace ((q =? 10) || (q =? 13)) with false by (destruct Hq; subst; reflexivity).
    replace (q =? chr "\") with false by (destruct Hq; subst; reflexivity).
    rewrite N.eqb_refl. simpl. rewrite Hl. rewrite Nat.add_0_r, Nat.add_1_r. reflexivity.
  - cbn [app char_indices_from parse_string_loop].
    unfold bind at 1. rewrite next_ich_with_input. cbv beta iota.
    cbn [body_ok] in Hb.
    destruct (N.eqb_spec c (chr "\")) as [Hc|Hc].
    + subst c. destruct body as [|d body]; [discriminate|].
      change ((chr "\" =? 10) || (chr "\" =? 13)) with false. cbv iota.
      cbn [app char_indices_from]. unfold bind at 1. rewrite next_ich_with_input. cbv beta iota.
      replace (chr "\" =? q) with false by (destruct Hq; subst; reflexivity).
      rewrite IH; [| exact Hb | simpl in Hf; lia].
      cbn [str_len]. rewrite !Nat.add_assoc. reflexivity.
    + apply andb_prop in Hb as [Hc2 Hb]. apply negb_true_iff in Hc2.
      apply orb_false_iff in Hc2 as [Hc2 Hcr]. apply orb_false_iff in Hc2 as [Hcq Hlf].
      rewrite Hlf, Hcr. cbv iota.
      cbn [orb]. rewrite Hcq.
      rewrite IH; [| exact Hb | simpl in Hf; lia].
      cbn [str_len]. rewrite !Nat.add_assoc. reflexivity.
Qed.

(** X6. A source that starts with a quoted string, a double or single quote
    then a body in which every backslash escapes the next character and no
    unescaped quote, line feed or carriage return occurs, then the same
    quote, yields first a [String] token whose text is exactly that quoted
    string, quotes included; the stack is then empty. *)
Theorem X6_quoted_string_round_trip q body rest :
  (q = chr "034" \/ q = chr "'") -> body_ok q body = true ->
  fst (iter_next (new (q :: body ++ q :: rest)))
    = Some (Ret (mkJsonToken K.String (0, str_len (q :: body ++ [q]))%nat))
  /\ state_stack (snd (iter_next (new (q :: body ++ q :: rest)))) = []
  /\ view_text (q :: body ++ q :: rest) (0, str_len (q :: body ++ [q]))%nat = q :: body ++ [q].
Proof.
  intros Hq Hb.
  assert (Hl : len_utf8 q = 1%nat) by (destruct Hq; subst; reflexivity).
  assert (Hlen : str_len (q :: body ++ [q]) = S (1 + str_len body))
    by (cbn [str_len]; rewrite str_len_app; simpl; rewrite Hl; lia).
  assert (Hsl : slice (q :: body ++ q :: rest) 0 (str_len (q :: body ++ [q])) = Some (q :: body ++ [q])).
  { replace (q :: body ++ q :: rest) with ((q :: body ++ [q]) ++ rest)
      by (simpl; rewrite <- app_assoc; reflexivity).
    apply slice_prefix. }
  rewrite iter_next_new.
  set (r0 := {| source := q :: body ++ q :: rest; state_stack := []; idx_chars := []; next := None |}).
  assert (E1 : next_clean (with_input r0 (char_indices (q :: body ++ q :: rest)))
               = (Ret (Some (0%nat, q)), with_input r0 (char_indices_from 1 (body ++ q :: rest))))
    by (destruct Hq; subst q; reflexivity).
  assert (E2 : parse_string (0%nat, q) (with_input r0 (char_indices_from 1 (body ++ q :: rest)))
               = (Ret (0, S (1 + str_len body))%nat,
                  with_input r0 (char_indices_from (S (1 + str_len body)) rest))).
  { unfold parse_string, loop_fuel. cbn [fst snd].
    rewrite (parse_string_body _ q 0 1 r0 body rest Hq Hb)
      by (rewrite remaining_with_input, cif_length, length_app; simpl; lia).
    apply str_slice_ret. cbn [source with_input r0]. rewrite <- Hlen, Hsl. discriminate. }
  unfold parse. rewrite (bind_eq _ _ _ _ _ E1). cbn [ok_or]. rewrite bind_ret_l. cbv beta iota.
  replace ((q =? chr "034") || (q =? chr "'")) with true by (destruct Hq; subst; reflexivity).
  rewrite (bind_eq _ _ _ _ _ E2). cbn [fst snd]. rewrite Hlen.
  split; [reflexivity|]. split; [reflexivity|].
  unfold view_text. cbn [fst snd]. rewrite <- Hlen, Hsl. reflexivity.
Qed.


Lemma scalar_span_cif o cs rest :
  forallb scalar_char cs = true ->
  match rest with [] => True | c :: _ => scalar_char c = false end ->
  scalar_span (char_indices_from o (cs ++ rest))
  = (char_indices_from o cs, char_indices_from (o + str_len cs) rest).
Proof.
  intros Hcs Hr. revert o; induction cs as [|c cs IH]; intro o.
  - rewrite Nat.add_0_r. destruct rest as [|c rest]; [reflexivity|].
    simpl. rewrite Hr. reflexivity.
  - cbn [forallb] in Hcs. apply andb_prop in Hcs as [Hc Hcs].
    cbn [app char_indices_from scalar_span snd]. rewrite Hc, (IH Hcs).
    cbn [str_len]. rewrite Nat.add_assoc. reflexivity.
Qed.

Lemma bytes_cif o cs : bytes (char_indices_from o cs) = str_len cs.
Proof.
  revert o; induction cs as [|c cs IH]; intro o; [reflexivity|].
  cbn [char_indices_from]. unfold bytes. cbn [fold_right snd]. fold (bytes (char_indices_from (o + len_utf8 c) cs)).
  rewrite IH. reflexivity.
Qed.

(** A character accepted by the scalar scan is none of the delimiters. *)
Lemma scalar_char_not_reserved c d : scalar_char c = true -> In d reserved -> (c =? d) = false.
Proof.
  intros Hc Hd. unfold scalar_char in Hc. apply andb_prop in Hc as [_ Hc].
  apply negb_true_iff in Hc. destruct (N.eqb_spec c d) as [<-|]; [|reflexivity].
  assert (existsb (N.eqb c) reserved = true) by (apply existsb_exists; exists c; split; [exact Hd | apply N.eqb_refl]).
  congruence.
Qed.

Ltac reserved_in := unfold reserved; cbn [map]; simpl; tauto.

(** X7. A source that starts with a run of scalar characters (none of the
    delimiters and none below the space; spaces inside are kept), not led by a single quote and
    followed by the end or a non-scalar character, yields first a token
    whose text is exactly that run and whose kind is [classify] of it; the
    stack is then empty. *)
Theorem X7_unquoted_scalar_round_trip c0 cs rest :
  forallb scalar_char (c0 :: cs) = true -> 32 < c0 -> c0 <> chr "'" ->
  match rest with [] => True | c :: _ => scalar_char c = false end ->
  fst (iter_next (new (c0 :: cs ++ rest)))
    = Some (Ret (mkJsonToken (classify (c0 :: cs)) (0, str_len (c0 :: cs))%nat))
  /\ state_stack (snd (iter_next (new (c0 :: cs ++ rest)))) = [].
Proof.
  intros Hcs H32 Hq Hr.
  assert (Hc0 : scalar_char c0 = true) by (cbn [forallb] in Hcs; apply andb_prop in Hcs; tauto).
  assert (Hsl : slice (c0 :: cs ++ rest) 0 (str_len (c0 :: cs)) = Some (c0 :: cs))
    by exact (slice_prefix (c0 :: cs) rest).
  rewrite iter_next_new.
  set (r0 := {| source := c0 :: cs ++ rest; state_stack := []; idx_chars := []; next := None |}).
  set (L := char_indices_from (0 + len_utf8 c0) (cs ++ rest)).
  assert (E1 : next_clean (with_input r0 (char_indices (c0 :: cs ++ rest)))
               = (Ret (Some (0%nat, c0)), with_input r0 L)).
  { change (char_indices (c0 :: cs ++ rest)) with ((0%nat, c0) :: L).
    rewrite next_clean_with_input, next_clean_step. cbv zeta. cbn [snd].
    rewrite (scalar_char_not_reserved _ (chr "/") Hc0 ltac:(reserved_in)).
    rewrite (scalar_char_not_reserved _ (chr "#") Hc0 ltac:(reserved_in)).
    rewrite (proj2 (N.ltb_lt _ _) H32). reflexivity. }
  unfold parse. rewrite (bind_eq _ _ _ _ _ E1). cbn [ok_or]. rewrite bind_ret_l. cbv beta iota.
  rewrite (scalar_char_not_reserved _ (chr "034") Hc0 ltac:(reserved_in)).
  rewrite (proj2 (N.eqb_neq _ _) Hq).
  rewrite (scalar_char_not_reserved _ (chr "{") Hc0 ltac:(reserved_in)).
  rewrite (scalar_char_not_reserved _ (chr "[") Hc0 ltac:(reserved_in)). cbn [orb].
  assert (E2 : scan 0 c0 (with_input r0 L)
               = (Ret (str_len (c0 :: cs)),
                  after_scan (with_input r0 L)
                    (snd (scalar_span ((0%nat, c0) :: pending (with_input r0 L)))))).
  { unfold scan, loop_fuel. rewrite scan_loop_span; [| reflexivity | unfold remaining, pending; simpl; lia].
    do 2 f_equal. change ((0%nat, c0) :: pending (with_input r0 L))
      with (char_indices_from 0 ((c0 :: cs) ++ rest)).
    rewrite (scalar_span_cif 0 (c0 :: cs) rest Hcs Hr). cbn [fst]. apply bytes_cif. }
  rewrite (bind_eq _ _ _ _ _ E2).
  replace (Nat.eqb (str_len (c0 :: cs)) 0) with false
    by (symmetry; apply Nat.eqb_neq; cbn [str_len]; pose proof (len_utf8_pos c0); lia).
  erewrite bind_ret; [|apply str_slice_ret]. 2:{ cbn [after_scan source with_input r0]. rewrite Hsl. discriminate. }
  unfold view_text. cbn [fst snd gets bind after_scan source with_input r0 state_stack ret].
  rewrite Hsl. split; reflexivity.
Qed.
















Lemma X1_no_panic_without_slash_witness :
  ~ In (chr "/") (jq "[1,{`a`:2}]")
  /\ match fst (iter_next (iter_state 3 (new (jq "[1,{`a`:2}]")))) with
     | Some Panic => False
     | Some (Ret t) => (fst (text t) < snd (text t))%nat
                       /\ slice (jq "[1,{`a`:2}]") (fst (text t)) (snd (text t)) <> None
     | _ => True
     end.
Proof.
  assert (Hns : ~ In (chr "/") (jq "[1,{`a`:2}]")) by (vm_compute; intuition discriminate).
  split; [exact Hns | apply (X1_no_panic_without_slash _ 3 Hns)].
Defined.

Lemma X4_next_clean_skips_trivia_witness :
  Forall trivia [[(0%nat, 32)]; [(1%nat, 47); (2%nat, 42); (3%nat, 120); (4%nat, 42); (5%nat, 47)];
                 [(6%nat, 35); (7%nat, 120); (8%nat, 10)]]
  /\ next_clean (with_input (new [])
       (List.concat [[(0%nat, 32)]; [(1%nat, 47); (2%nat, 42); (3%nat, 120); (4%nat, 42); (5%nat, 47)];
                     [(6%nat, 35); (7%nat, 120); (8%nat, 10)]] ++ [(9%nat, 49)]))
     = next_clean (with_input (new []) [(9%nat, 49)]).
Proof.
  assert (Hts : Forall trivia [[(0%nat, 32)]; [(1%nat, 47); (2%nat, 42); (3%nat, 120); (4%nat, 42); (5%nat, 47)];
                               [(6%nat, 35); (7%nat, 120); (8%nat, 10)]]).
  { repeat apply Forall_cons; [| | | apply Forall_nil].
    - apply trivia_space. vm_compute. discriminate.
    - apply (trivia_block (1%nat, 47) (2%nat, 42) [(3%nat, 120)] (4%nat, 42) (5%nat, 47));
        reflexivity.
    - apply (trivia_hash (6%nat, 35) [(7%nat, 120)] (8%nat, 10)); [reflexivity | reflexivity | left; reflexivity]. }
  split; [exact Hts | apply (X4_next_clean_skips_trivia _ _ _ Hts)].
Defined.

Lemma X6_quoted_string_round_trip_witness :
  (chr "034" = chr "034" \/ chr "034" = chr "'") /\ body_ok (chr "034") [97; 92; 34] = true
  /\ fst (iter_next (new (chr "034" :: [97; 92; 34] ++ chr "034" :: [32])))
     = Some (Ret (mkJsonToken K.String (0%nat, str_len (chr "034" :: [97; 92; 34] ++ [chr "034"])))).
Proof.
  assert (Hq : chr "034" = chr "034" \/ chr "034" = chr "'") by (left; reflexivity).
  assert (Hb : body_ok (chr "034") [97; 92; 34] = true) by reflexivity.
  split; [exact Hq | split; [exact Hb | apply (X6_quoted_string_round_trip _ _ [32] Hq Hb)]].
Defined.

Lemma X7_unquoted_scalar_round_trip_witness :
  forallb scalar_char (chr "t" :: lit "rue") = true /\ 32 < chr "t" /\ chr "t" <> chr "'"
  /\ fst (iter_next (new (chr "t" :: lit "rue" ++ [chr ","])))
     = Some (Ret (mkJsonToken (classify (chr "t" :: lit "rue")) (0, str_len (chr "t" :: lit "rue"))%nat)).
Proof.
  assert (H1 : forallb scalar_char (chr "t" :: lit "rue") = true) by reflexivity.
  assert (H2 : 32 < chr "t") by (vm_compute; reflexivity).
  assert (H3 : chr "t" <> chr "'") by (vm_compute; discriminate).
  assert (H4 : match [chr ","] with [] => True | c :: _ => scalar_char c = false end) by reflexivity.
  split; [exact H1 | split; [exact H2 | split; [exact H3 | apply (X7_unquoted_scalar_round_trip _ _ [chr ","] H1 H2 H3 H4)]]].
Defined.

Lemma X5_blank_input_witness :
  Forall trivia [[(0%nat, 32)]; [(1%nat, 35); (2%nat, 97); (3%nat, 10)]]
  /\ char_indices [32; 35; 97; 10] = List.concat [[(0%nat, 32)]; [(1%nat, 35); (2%nat, 97); (3%nat, 10)]]
  /\ fst (iter_next (new [32; 35; 97; 10])) = Some (Throw MissingValue).
Proof.
  assert (Hts : Forall trivia [[(0%nat, 32)]; [(1%nat, 35); (2%nat, 97); (3%nat, 10)]]).
  { repeat apply Forall_cons; [| | apply Forall_nil].
    - apply trivia_space. vm_compute. discriminate.
    - apply (trivia_hash (1%nat, 35) [(2%nat, 97)] (3%nat, 10)); [reflexivity | reflexivity | left; reflexivity]. }
  assert (Hc : char_indices [32; 35; 97; 10] = List.concat [[(0%nat, 32)]; [(1%nat, 35); (2%nat, 97); (3%nat, 10)]])
    by reflexivity.
  split; [exact Hts | split; [exact Hc | apply (X5_blank_input _ _ Hts Hc)]].
Defined.

